(** * saas_skeleton_rate_limit: request gating, API keys and the rate limiter

    A shallow embedding of [saas_skeleton_rate_limit.py]: the SQL tables
    are lists of rows, the Redis server is a finite map from key names to
    counters with an expiry deadline, exceptions are a result type, and
    the libraries the program calls (HMAC, bcrypt, python-jose, the
    builtin [int]) are the fields of a class.

    Time is one clock, in microseconds since the epoch.  Every handler
    reads it once per request.  The limiter is given twice: as a function
    that runs a call in one step, and command by command, so that the
    calls of several requests can be interleaved.

    Failures of the backends are inputs of a request: whether a query of
    the resolver raises, and whether a Redis command is lost.  The key
    management handlers run on a database that answers.  The listing
    routes only read and are left out. *)

From Stdlib Require Import ZArith Lia Ascii.
From stdpp Require Import base decidable option list strings pretty gmap.

Open Scope Z_scope.

(** ** Python strings *)

Module Py.

(** [c.lower()] for one character.  Only ASCII letters are mapped, which
    is exact for the comparison with ["bearer"] the program makes. *)
Definition lower_ascii (c : ascii) : ascii :=
  let n := Ascii.nat_of_ascii c in
  if ((65 <=? n) && (n <=? 90))%nat then Ascii.ascii_of_nat (n + 32) else c.

Fixpoint lower (s : string) : string :=
  match s with
  | EmptyString => EmptyString
  | String c s' => String (lower_ascii c) (lower s')
  end.

(** [s.partition(sep)] for a one-character separator. *)
Fixpoint partition (sep : ascii) (s : string) : string * string * string :=
  match s with
  | EmptyString => (EmptyString, EmptyString, EmptyString)
  | String c s' =>
      if decide (c = sep) then (EmptyString, String sep EmptyString, s')
      else let '(h, m, t) := partition sep s' in (String c h, m, t)
  end.

(** [s.split(sep)] for a one-character separator. *)
Fixpoint split (sep : ascii) (s : string) : list string :=
  match s with
  | EmptyString => [EmptyString]
  | String c s' =>
      if decide (c = sep) then EmptyString :: split sep s'
      else match split sep s' with
           | [] => [String c EmptyString]
           | h :: t => String c h :: t
           end
  end.

(** [sep.join(l)] *)
Definition join (sep : string) (l : list string) : string := String.concat sep l.

(** [s[:n]] and [s[-n:]] for [0 <= n]. *)
Definition prefix (n : nat) (s : string) : string := String.substring 0 n s.
Definition suffix (n : nat) (s : string) : string :=
  String.substring (String.length s - n) n s.

(** [str(z)] and the [{z}] of an f-string. *)
Definition str (z : Z) : string := pretty z.

(** [d.get(k, default)] *)
Definition get {V} (d : gmap string V) (k : string) (dflt : V) : V :=
  default dflt (d !! k).

End Py.

(** ** Exceptions and results *)

Inductive exn :=
  | OperationalError   (* sqlalchemy: the database did not answer *)
  | IntegrityError     (* sqlalchemy: a unique constraint is violated *)
  | TypeError
  | ValueError
  | OverflowError.     (* datetime: days or date value out of range *)

(** What a handler gives back to the framework: a value, an
    [HTTPException], or an exception nobody catches (the framework answers
    500). *)
Inductive result (A : Type) :=
  | Ok (a : A)
  | HTTPException (status_code : Z) (detail : string)
  | Uncaught (e : exn).
Arguments Ok {A} a.
Arguments HTTPException {A} status_code detail.
Arguments Uncaught {A} e.

Global Instance result_ret : MRet result := λ A a, Ok a.
Global Instance result_bind : MBind result := λ A B f m,
  match m with
  | Ok a => f a
  | HTTPException c d => HTTPException c d
  | Uncaught e => Uncaught e
  end.

Definition is_ok {A} (r : result A) : bool :=
  match r with Ok _ => true | _ => false end.

Definition status_of {A} (r : result A) : option Z :=
  match r with HTTPException c _ => Some c | _ => None end.

(** The verdicts of the gate, as the HTTP layer shows them. *)
Definition Unauthenticated {A} (r : result A) : Prop := status_of r = Some 401.

(** ** Config *)

Definition ACCESS_TOKEN_EXPIRE_MINUTES : Z := 60.

Inductive UserTypeEnum := NORMAL | VIP | ENTERPRISE.

Definition value (t : UserTypeEnum) : string :=
  match t with
  | NORMAL => "NORMAL"
  | VIP => "VIP"
  | ENTERPRISE => "ENTERPRISE"
  end.

Global Instance UserTypeEnum_eq_dec : EqDecision UserTypeEnum.
Proof. solve_decision. Defined.

(** Quota by user type (QPS); 0 means unlimited. *)
Definition API_KEY_QUOTA : gmap string Z :=
  <["NORMAL" := 10]> (<["VIP" := 100]> (<["ENTERPRISE" := 0]> ∅)).

Definition DEFAULT_SCOPES : gmap string (list string) :=
  <["NORMAL" := ["generate:text"]]>
  (<["VIP" := ["generate:text"; "generate:image"; "tts"]]>
  (<["ENTERPRISE" :=
       ["generate:text"; "generate:image"; "tts"; "generate:video"; "admin"]]> ∅)).

(** ** Time *)

Definition SECOND : Z := 1000000.
Definition MINUTE : Z := 60 * SECOND.
Definition DAY : Z := 86400 * SECOND.

(** [int(time.time())] and [int(dt.timestamp())]: truncation. *)
Definition int_seconds (t : Z) : Z := Z.quot t SECOND.

(** [datetime.min] and [datetime.max], in microseconds from the epoch. *)
Definition DATETIME_MIN : Z := -62135596800 * SECOND.
Definition DATETIME_MAX : Z := 253402300800 * SECOND - 1.

(** [t + timedelta(days=d)]: a [timedelta] holds at most 999999999 days
    either way and the sum has to be a [datetime] again; Python raises
    OverflowError otherwise. *)
Definition add_days (t d : Z) : result Z :=
  if decide ((-999999999 ≤ d ≤ 999999999)
             ∧ DATETIME_MIN ≤ t + d * DAY ≤ DATETIME_MAX)
  then Ok (t + d * DAY)
  else Uncaught OverflowError.

(** ** Models *)

Module Org.
Record t := mk { id : Z; name : string; created_at : Z }.
End Org.

Module User.
Record t := mk {
  id : Z;
  org_id : Z;
  username : string;
  hashed_password : string;
  is_admin : bool;
  user_type : UserTypeEnum;
  created_at : Z
}.
End User.

Module APIKey.
Record t := mk {
  id : Z;
  org_id : Z;
  user_id : Z;
  key_hash : string;
  key_preview : string;
  name : option string;
  scopes : option string;       (* comma-separated scopes *)
  revoked : bool;
  created_at : Z;
  expires_at : option Z
}.

Definition set_revoked (b : bool) (a : t) : t :=
  mk (id a) (org_id a) (user_id a) (key_hash a) (key_preview a) (name a)
     (scopes a) b (created_at a) (expires_at a).
End APIKey.

(** The database: one list of rows per table, in insertion order. *)
Record DB := mkDB {
  orgs : list Org.t;
  users : list User.t;
  api_keys : list APIKey.t
}.

Definition empty_db : DB := mkDB [] [] [].

(** The next value of an integer primary key: one more than the largest
    row id, 1 in an empty table. *)
Definition next_id (ids : list Z) : Z := 1 + foldr Z.max 0 ids.

(** [query.filter_by(...).first()] and [.count()] *)
Definition first {A} (P : A → Prop) `{∀ x, Decision (P x)} (l : list A) : option A :=
  head (filter P l).
Definition count {A} (P : A → Prop) `{∀ x, Decision (P x)} (l : list A) : Z :=
  Z.of_nat (length (filter P l)).

(** ** Session-token claims *)

(** The values of the claims the program signs and reads: strings and
    integers. *)
Inductive jval := JStr (s : string) | JInt (z : Z).

Global Instance jval_eq_dec : EqDecision jval.
Proof. solve_decision. Defined.

Abbreviation claims := (gmap string jval).

(** ** The libraries the program calls *)

Class Platform := {
  (** [os.environ.get("SECRET_KEY", ...)] and
      [os.environ.get("API_KEY_HASH_SECRET", ...)] *)
  SECRET_KEY : string;
  API_KEY_HASH_SECRET : string;
  (** [hmac.new(key, msg, hashlib.sha256).hexdigest()] *)
  hmac_sha256_hex : string → string → string;
  (** passlib's [pwd_context.hash] and [pwd_context.verify] *)
  pwd_context_hash : string → string;
  pwd_context_verify : string → string → bool;
  (** the builtin [int] on a [str]; [None] is [ValueError] *)
  int_of_str : string → option Z;
  (** [jose.jwt.encode(claims, key, algorithm="HS256")] *)
  jwt_encode : claims → string → string;
  (** the signature and structure check of [jose.jwt.decode]: the claims
      of a well-formed token signed with the key *)
  jws_verify : string → string → option claims;
  (** the claim checks [jose.jwt.decode] makes before the expiry check
      (iat, nbf, at the time given in seconds) and after it (aud, iss,
      sub, jti, at_hash) *)
  claims_valid_before_exp : claims → Z → bool;
  claims_valid_after_exp : claims → bool
}.

(** ** The environment of one request *)

(** A Redis command either goes through, never reaches the server, or
    is applied by the server while its reply is lost.  The last two raise
    [redis.RedisError] in the client. *)
Inductive RedisFault := NoFault | Dropped | ReplyLost.

Record Env := mkEnv {
  utcnow : Z;                  (* the clock, microseconds *)
  db_fails : nat → bool;       (* does the n-th query of the resolver raise *)
  incr_fault : RedisFault;
  expire_fault : RedisFault
}.

Definition healthy (t : Z) : Env := mkEnv t (λ _, false) NoFault NoFault.

(** ** The Redis server *)

Module Redis.

Record entry := mk { val : Z; deadline : option Z }.

Abbreviation store := (gmap string entry).

Definition live (t : Z) (e : entry) : bool :=
  match deadline e with
  | None => true
  | Some d => bool_decide (t < d)
  end.

(** An entry past its deadline is gone. *)
Definition get (t : Z) (key : string) (s : store) : option entry :=
  match s !! key with
  | Some e => if live t e then Some e else None
  | None => None
  end.

(** INCR: a missing key counts from 0; the deadline is kept.  (The
    overflow error of the server is among the failures of [rcli_incr].) *)
Definition incr (t : Z) (key : string) (s : store) : Z * store :=
  match get t key s with
  | Some e => (val e + 1, <[key := mk (val e + 1) (deadline e)]> s)
  | None => (1, <[key := mk 1 None]> s)
  end.

(** EXPIRE key secs *)
Definition expire (t : Z) (key : string) (secs : Z) (s : store) : store :=
  match get t key s with
  | Some e => <[key := mk (val e) (Some (t + secs * SECOND))]> s
  | None => s
  end.

End Redis.

(** [rcli.incr(key)]: the reply, or [None] for [redis.RedisError]. *)
Definition rcli_incr (env : Env) (key : string) (s : Redis.store)
  : option Z * Redis.store :=
  match incr_fault env with
  | NoFault => let '(cur, s') := Redis.incr (utcnow env) key s in (Some cur, s')
  | Dropped => (None, s)
  | ReplyLost => (None, (Redis.incr (utcnow env) key s).2)
  end.

(** [rcli.expire(key, secs)] *)
Definition rcli_expire (env : Env) (key : string) (secs : Z) (s : Redis.store)
  : option unit * Redis.store :=
  match expire_fault env with
  | NoFault => (Some (), Redis.expire (utcnow env) key secs s)
  | Dropped => (None, s)
  | ReplyLost => (None, Redis.expire (utcnow env) key secs s)
  end.

(** ** Rate limit logic (Redis fixed-window per-second) *)

Record RateInfo := mkRateInfo { limit : Z; current : Z }.

Definition rl_key (user_id now_s : Z) : string :=
  "rl:user:" +:+ Py.str user_id +:+ ":" +:+ Py.str now_s.

Definition rate_limit_check_by_user (env : Env) (user_id : Z) (user_type : string)
    (rcli : Redis.store) : (bool * option RateInfo) * Redis.store :=
  (* ENTERPRISE unlimited *)
  if decide (user_type = value ENTERPRISE) then ((true, None), rcli)
  else
    let limit := Py.get API_KEY_QUOTA user_type 10 in
    if decide (limit ≤ 0) then ((true, None), rcli)
    else
      let now_s := int_seconds (utcnow env) in
      let key := rl_key user_id now_s in
      match rcli_incr env key rcli with
      | (None, rcli1) => ((true, None), rcli1)          (* except RedisError *)
      | (Some cur, rcli1) =>
          match (if decide (cur = 1) then rcli_expire env key 2 rcli1
                 else (Some (), rcli1)) with
          | (None, rcli2) => ((true, None), rcli2)      (* except RedisError *)
          | (Some _, rcli2) =>
              if decide (cur > limit)
              then ((false, Some (mkRateInfo limit cur)), rcli2)
              else ((true, None), rcli2)
          end
      end.

(** The calls of one user, one after the other, each in its own
    environment: the verdicts and the final store. *)
Fixpoint admit_all (user_id : Z) (user_type : string) (envs : list Env)
    (rcli : Redis.store) : list (bool * option RateInfo) * Redis.store :=
  match envs with
  | [] => ([], rcli)
  | env :: envs' =>
      let '(v, rcli1) := rate_limit_check_by_user env user_id user_type rcli in
      let '(vs, rcli2) := admit_all user_id user_type envs' rcli1 in
      (v :: vs, rcli2)
  end.

Definition admitted (vs : list (bool * option RateInfo)) : nat :=
  length (filter (λ v, v.1 = true) vs).
Definition throttled (vs : list (bool * option RateInfo)) : nat :=
  length (filter (λ v, v.1 = false) vs).

(** What the limiter answers for a count: it compares after counting. *)
Definition verdict (limit cur : Z) : bool * option RateInfo :=
  if decide (cur > limit) then (false, Some (mkRateInfo limit cur)) else (true, None).

(** [verdicts limit c n]: the answers to the counts [c+1 .. c+n]. *)
Fixpoint verdicts (limit c : Z) (n : nat) : list (bool * option RateInfo) :=
  match n with
  | O => []
  | S n' => verdict limit (c + 1) :: verdicts limit (c + 1) n'
  end.

(** The counter of a window holds [c]: no entry for 0, else an entry
    that lives through the window. *)
Definition counted (w : Z) (key : string) (c : Z) (rcli : Redis.store) : Prop :=
  match rcli !! key with
  | None => c = 0
  | Some e => Redis.val e = c ∧ 1 ≤ c ∧ ∀ t, int_seconds t = w → Redis.live t e = true
  end.

(** ** The limiter, command by command

    Calls of several requests overlap in time; the Redis server runs
    their commands one at a time.  A call is what it sends next and how it
    goes on with the reply. *)
Inductive call :=
  | Done (v : bool * option RateInfo)
  | SendIncr (key : string) (k : option Z → call)
  | SendExpire (key : string) (secs : Z) (k : option unit → call).

(** The body of [rate_limit_check_by_user] after it read the clock. *)
Definition limiter_call (now_s user_id : Z) (user_type : string) : call :=
  if decide (user_type = value ENTERPRISE) then Done (true, None)
  else
    let limit := Py.get API_KEY_QUOTA user_type 10 in
    if decide (limit ≤ 0) then Done (true, None)
    else
      let key := rl_key user_id now_s in
      SendIncr key (λ r,
        match r with
        | None => Done (true, None)
        | Some cur =>
            let compare :=
              if decide (cur > limit)
              then Done (false, Some (mkRateInfo limit cur))
              else Done (true, None) in
            if decide (cur = 1)
            then SendExpire key 2 (λ r,
                   match r with
                   | None => Done (true, None)
                   | Some _ => compare
                   end)
            else compare
        end).

(** A call that runs alone, in one environment. *)
Fixpoint run_call (env : Env) (c : call) (rcli : Redis.store)
  : (bool * option RateInfo) * Redis.store :=
  match c with
  | Done v => (v, rcli)
  | SendIncr key k =>
      let '(r, rcli1) := rcli_incr env key rcli in run_call env (k r) rcli1
  | SendExpire key secs k =>
      let '(r, rcli1) := rcli_expire env key secs rcli in run_call env (k r) rcli1
  end.

(** The next command of a call reaches a server that answers, at time [t]. *)
Definition step_call (t : Z) (c : call) (rcli : Redis.store) : call * Redis.store :=
  match c with
  | Done v => (Done v, rcli)
  | SendIncr key k =>
      let '(cur, rcli1) := Redis.incr t key rcli in (k (Some cur), rcli1)
  | SendExpire key secs k => (k (Some ()), Redis.expire t key secs rcli)
  end.

(** A schedule names, step by step, the call whose next command is run
    and the time. *)
Fixpoint run_schedule (sched : list (nat * Z)) (calls : list call)
    (rcli : Redis.store) : list call * Redis.store :=
  match sched with
  | [] => (calls, rcli)
  | (i, t) :: sched' =>
      match calls !! i with
      | None => run_schedule sched' calls rcli
      | Some c =>
          let '(c', rcli1) := step_call t c rcli in
          run_schedule sched' (<[i := c']> calls) rcli1
      end
  end.

Definition verdict_of (c : call) : option (bool * option RateInfo) :=
  match c with Done v => Some v | _ => None end.

(** Where a call of a window stands, with the count its INCR returned:
    not sent yet, waiting to send the EXPIRE of the first count, or done. *)
Inductive call_at (limit : Z) (key : string) : call → option Z → Prop :=
  | call_new k :
      (∀ cur, call_at limit key (k (Some cur)) (Some cur)) →
      call_at limit key (SendIncr key k) None
  | call_first k :
      k (Some ()) = Done (verdict limit 1) →
      call_at limit key (SendExpire key 2 k) (Some 1)
  | call_done cur :
      call_at limit key (Done (verdict limit cur)) (Some cur).

(** What holds between the steps of a schedule in the window [w]: every
    call stands where its count says, the counts handed out are
    [1 .. m], and the counter holds [m]. *)
Definition window_inv (limit w : Z) (key : string) (calls : list call)
    (curs : list (option Z)) (rcli : Redis.store) : Prop :=
  Forall2 (call_at limit key) calls curs
  ∧ omap id curs ≡ₚ seqZ 1 (Z.of_nat (length (omap id curs)))
  ∧ counted w key (Z.of_nat (length (omap id curs))) rcli.

(** ** The resolved caller *)

(** The dict [get_current_user] returns: [{"user", "auth_type", "api_obj"}]
    or [{"user", "auth_type", "token_payload"}]. *)
Inductive Auth :=
  | AuthApiKey (user : User.t) (api_obj : APIKey.t)
  | AuthJwt (user : User.t) (token_payload : claims).

Definition auth_user (auth : Auth) : User.t :=
  match auth with AuthApiKey u _ => u | AuthJwt u _ => u end.

Definition auth_type (auth : Auth) : string :=
  match auth with AuthApiKey _ _ => "api_key" | AuthJwt _ _ => "jwt" end.

(** A query of the resolver: it raises when the store is down. *)
Definition query {A} (env : Env) (n : nat) (x : A) : result A :=
  if db_fails env n then Uncaught OperationalError else Ok x.

(** A header or string that Python takes as true: present and not empty. *)
Definition truthy (h : option string) : option string :=
  match h with
  | Some s => if decide (s = EmptyString) then None else Some s
  | None => None
  end.

(** [api.expires_at and api.expires_at < datetime.utcnow()] *)
Definition key_expired (now : Z) (api : APIKey.t) : bool :=
  match APIKey.expires_at api with
  | Some e => bool_decide (e < now)
  | None => false
  end.

(** ** Pydantic schemas *)

Module SignupReq.
Record t := mk {
  org_name : string;
  username : string;
  password : string;
  user_type : option UserTypeEnum;
  is_admin : option bool
}.
End SignupReq.

Module APIKeyCreateReq.
Record t := mk {
  name : option string;
  expires_days : option Z;
  scopes : option (list string)
}.
End APIKeyCreateReq.

Module APIKeyOut.
Record t := mk {
  id : Z;
  org_id : Z;
  user_id : Z;
  key : string;
  name : option string;
  scopes : list string;
  revoked : bool;
  created_at : Z;
  expires_at : option Z
}.
End APIKeyOut.

(** A row of the admin listing. *)
Module OrgKeyOut.
Record t := mk {
  id : Z;
  user_id : Z;
  key_preview : string;
  name : option string;
  scopes : list string;
  revoked : bool;
  created_at : Z
}.
End OrgKeyOut.

Inductive JWTError := InvalidToken | JWTClaimsError | ExpiredSignatureError.

Section App.
Context `{Platform}.

(** ** Utilities *)

(** [token_hex] is what [secrets.token_hex(length // 2)] drew. *)
Definition gen_api_key (prefix token_hex : string) : string :=
  prefix +:+ "-" +:+ token_hex.

Definition mask_key (key : string) : string :=
  if decide (key = EmptyString ∨ (String.length key ≤ 9)%nat) then key
  else Py.prefix 5 key +:+ "****" +:+ Py.suffix 4 key.

Definition hash_key_hmac (key : string) : string :=
  hmac_sha256_hex API_KEY_HASH_SECRET key.

(** [int(v)] for a claim. *)
Definition py_int (v : jval) : option Z :=
  match v with
  | JInt z => Some z
  | JStr s => int_of_str s
  end.

(** python-jose's expiry check, [_validate_exp] with no leeway: a token
    without the claim passes; with it, the token is refused when
    [exp < now], both in whole seconds. *)
Definition validate_exp (c : claims) (now_s : Z) : option JWTError :=
  match c !! "exp" with
  | None => None
  | Some v =>
      match py_int v with
      | None => Some JWTClaimsError
      | Some exp => if decide (exp < now_s) then Some ExpiredSignatureError else None
      end
  end.

(** [jose.jwt.decode(token, key, algorithms=["HS256"])] at [now_s]. *)
Definition jwt_decode (token key : string) (now_s : Z) : JWTError + claims :=
  match jws_verify token key with
  | None => inl InvalidToken
  | Some c =>
      if negb (claims_valid_before_exp c now_s) then inl JWTClaimsError
      else match validate_exp c now_s with
           | Some e => inl e
           | None => if claims_valid_after_exp c then inr c else inl JWTClaimsError
           end
  end.

Definition create_access_token (data : claims) (expires_minutes : Z) (now : Z) : string :=
  let expire := now + expires_minutes * MINUTE in
  let to_encode :=
    <["exp" := JInt (int_seconds expire)]> (<["iat" := JInt (int_seconds now)]> data) in
  jwt_encode to_encode SECRET_KEY.

(** The [JWTError] is raised again as it is. *)
Definition decode_access_token (env : Env) (token : string) : JWTError + claims :=
  jwt_decode token SECRET_KEY (utcnow env `div` SECOND).

(** ** Auth dependency: x-api-key or Bearer *)

Definition get_current_user (env : Env) (x_api_key authorization : option string)
    (db : DB) : result Auth :=
  match truthy x_api_key with
  | Some k =>
      (* 1) API key authentication *)
      let key_h := hash_key_hmac k in
      api ← query env 0
        (first (λ a, APIKey.key_hash a = key_h ∧ APIKey.revoked a = false)
               (api_keys db));
      match api with
      | None => HTTPException 401 "Invalid API key"
      | Some api =>
          if key_expired (utcnow env) api
          then HTTPException 401 "API key expired"
          else
            user ← query env 1
              (first (λ u, User.id u = APIKey.user_id api) (users db));
            match user with
            | None => HTTPException 401 "User not found"
            | Some user => Ok (AuthApiKey user api)
            end
      end
  | None =>
      match truthy authorization with
      | Some a =>
          (* 2) Bearer JWT authentication *)
          let '(scheme, _, token) := Py.partition " " a in
          if decide (Py.lower scheme ≠ "bearer")
          then HTTPException 401 "Invalid auth scheme"
          else
            match decode_access_token env token with
            | inl _ => HTTPException 401 "Invalid token"
            | inr payload =>
                match payload !! "sub" with
                | None => Uncaught TypeError
                | Some sub =>
                    match py_int sub with
                    | None => Uncaught ValueError
                    | Some user_id =>
                        match payload !! "org" with
                        | None => Uncaught TypeError
                        | Some org =>
                            match py_int org with
                            | None => Uncaught ValueError
                            | Some org_id =>
                                user ← query env 0
                                  (first (λ u, User.id u = user_id) (users db));
                                match user with
                                | None => HTTPException 401 "User not found"
                                | Some user =>
                                    if decide (User.org_id user ≠ org_id)
                                    then HTTPException 401 "org mismatch in token"
                                    else Ok (AuthJwt user payload)
                                end
                            end
                        end
                    end
                end
            end
      | None => HTTPException 401 "No authentication provided"
      end
  end.

(** ** Auth endpoints *)

Definition signup (env : Env) (payload : SignupReq.t) (db : DB)
  : result (Z * Z * string) * DB :=
  match first (λ o, Org.name o = SignupReq.org_name payload) (orgs db) with
  | Some _ => (HTTPException 400 "org exists", db)
  | None =>
      let org := Org.mk (next_id (Org.id <$> orgs db))
                        (SignupReq.org_name payload) (utcnow env) in
      let db1 := mkDB (orgs db ++ [org]) (users db) (api_keys db) in
      let user :=
        User.mk (next_id (User.id <$> users db)) (Org.id org)
                (SignupReq.username payload)
                (pwd_context_hash (SignupReq.password payload))
                (default false (SignupReq.is_admin payload))
                (default NORMAL (SignupReq.user_type payload))
                (utcnow env) in
      (* the username column is unique; the org is committed already *)
      match first (λ u, User.username u = SignupReq.username payload) (users db) with
      | Some _ => (Uncaught IntegrityError, db1)
      | None =>
          (Ok (Org.id org, User.id user, User.username user),
           mkDB (orgs db1) (users db1 ++ [user]) (api_keys db1))
      end
  end.

Definition token (env : Env) (form_username form_password : string) (db : DB)
  : result string :=
  match first (λ u, User.username u = form_username) (users db) with
  | None => HTTPException 401 "Invalid credentials"
  | Some user =>
      if negb (pwd_context_verify form_password (User.hashed_password user))
      then HTTPException 401 "Invalid credentials"
      else
        let payload : claims :=
          <["sub" := JStr (Py.str (User.id user))]>
          (<["org" := JStr (Py.str (User.org_id user))]>
          (<["user_type" := JStr (value (User.user_type user))]> ∅)) in
        Ok (create_access_token payload ACCESS_TOKEN_EXPIRE_MINUTES (utcnow env))
  end.

(** The claims [token] signs for a user at a time: the payload with
    [iat] and [exp]. *)
Definition session_claims (user : User.t) (now : Z) : claims :=
  <["exp" := JInt (int_seconds (now + ACCESS_TOKEN_EXPIRE_MINUTES * MINUTE))]>
  (<["iat" := JInt (int_seconds now)]>
  (<["sub" := JStr (Py.str (User.id user))]>
  (<["org" := JStr (Py.str (User.org_id user))]>
  (<["user_type" := JStr (value (User.user_type user))]> ∅)))).

(** ** API key management endpoints *)

Definition quota_detail (user_type : string) (quota : Z) : string :=
  "API key quota exceeded for user type " +:+ user_type
  +:+ " (quota=" +:+ Py.str quota +:+ ")".

(** [expires_at = None; if req.expires_days: expires_at =
    datetime.utcnow() + timedelta(days=req.expires_days)] *)
Definition key_expires_at (env : Env) (req : APIKeyCreateReq.t)
  : result (option Z) :=
  match APIKeyCreateReq.expires_days req with
  | Some d => if decide (d = 0) then Ok None
              else t ← add_days (utcnow env) d; Ok (Some t)
  | None => Ok None
  end.

Definition create_api_key (env : Env) (token_hex : string)
    (req : APIKeyCreateReq.t) (auth : Auth) (db : DB)
  : result APIKeyOut.t * DB :=
  if decide (auth_type auth ≠ "jwt")
  then (HTTPException 403 "Only JWT users can create keys in this sample", db)
  else
    let user := auth_user auth in
    let quota := Py.get API_KEY_QUOTA (value (User.user_type user)) 10 in
    let existing_count :=
      count (λ a, APIKey.user_id a = User.id user ∧ APIKey.revoked a = false)
            (api_keys db) in
    if decide (existing_count >= quota)
    then (HTTPException 403 (quota_detail (value (User.user_type user)) quota), db)
    else
      let clear_key := gen_api_key "sk" token_hex in
      let key_hash := hash_key_hmac clear_key in
      let preview := mask_key clear_key in
      let scopes :=
        match APIKeyCreateReq.scopes req with
        | Some l => l
        | None => Py.get DEFAULT_SCOPES (value (User.user_type user)) ["generate:text"]
        end in
      let scopes_str := Py.join "," scopes in
      match key_expires_at env req with
      | HTTPException c d => (HTTPException c d, db)
      | Uncaught e => (Uncaught e, db)
      | Ok expires_at =>
          let api :=
            APIKey.mk (next_id (APIKey.id <$> api_keys db)) (User.org_id user)
                      (User.id user) key_hash preview (APIKeyCreateReq.name req)
                      (Some scopes_str) false (utcnow env) expires_at in
          (* the key_hash column is unique *)
          match first (λ a, APIKey.key_hash a = key_hash) (api_keys db) with
          | Some _ => (Uncaught IntegrityError, db)
          | None =>
              (Ok (APIKeyOut.mk (APIKey.id api) (APIKey.org_id api)
                                (APIKey.user_id api) clear_key (APIKey.name api)
                                scopes (APIKey.revoked api) (APIKey.created_at api)
                                (APIKey.expires_at api)),
               mkDB (orgs db) (users db) (api_keys db ++ [api]))
          end
      end.

(** [create_api_key] in the two parts that another request can come
    between.  The statements up to the quota check read the table, with one
    [SELECT COUNT], and write nothing. *)
Definition create_api_key_check (auth : Auth) (db : DB) : result () :=
  if decide (auth_type auth ≠ "jwt")
  then HTTPException 403 "Only JWT users can create keys in this sample"
  else
    let user := auth_user auth in
    let quota := Py.get API_KEY_QUOTA (value (User.user_type user)) 10 in
    let existing_count :=
      count (λ a, APIKey.user_id a = User.id user ∧ APIKey.revoked a = false)
            (api_keys db) in
    if decide (existing_count >= quota)
    then HTTPException 403 (quota_detail (value (User.user_type user)) quota)
    else Ok ().

(** The statements of [create_api_key] after the quota check: the new
    row is built, added and committed to the table as it is then. *)
Definition create_api_key_insert (env : Env) (token_hex : string)
    (req : APIKeyCreateReq.t) (auth : Auth) (db : DB)
  : result APIKeyOut.t * DB :=
  let user := auth_user auth in
  let clear_key := gen_api_key "sk" token_hex in
  let key_hash := hash_key_hmac clear_key in
  let preview := mask_key clear_key in
  let scopes :=
    match APIKeyCreateReq.scopes req with
    | Some l => l
    | None => Py.get DEFAULT_SCOPES (value (User.user_type user)) ["generate:text"]
    end in
  let scopes_str := Py.join "," scopes in
  match key_expires_at env req with
  | HTTPException c d => (HTTPException c d, db)
  | Uncaught e => (Uncaught e, db)
  | Ok expires_at =>
      let api :=
        APIKey.mk (next_id (APIKey.id <$> api_keys db)) (User.org_id user)
                  (User.id user) key_hash preview (APIKeyCreateReq.name req)
                  (Some scopes_str) false (utcnow env) expires_at in
      (* the key_hash column is unique *)
      match first (λ a, APIKey.key_hash a = key_hash) (api_keys db) with
      | Some _ => (Uncaught IntegrityError, db)
      | None =>
          (Ok (APIKeyOut.mk (APIKey.id api) (APIKey.org_id api) (APIKey.user_id api)
                            clear_key (APIKey.name api) scopes (APIKey.revoked api)
                            (APIKey.created_at api) (APIKey.expires_at api)),
           mkDB (orgs db) (users db) (api_keys db ++ [api]))
      end
  end.

(** Two requests that overlap: the handlers run on a thread pool, each
    with a session of its own and without a lock, so both can count on the
    same table before either inserts. *)
Definition create_api_key_overlapping
    (env1 : Env) (token_hex1 : string) (req1 : APIKeyCreateReq.t) (auth1 : Auth)
    (env2 : Env) (token_hex2 : string) (req2 : APIKeyCreateReq.t) (auth2 : Auth)
    (db : DB) : result APIKeyOut.t * result APIKeyOut.t * DB :=
  let count1 := create_api_key_check auth1 db in
  let count2 := create_api_key_check auth2 db in
  let r1 :=
    match count1 with
    | Ok _ => create_api_key_insert env1 token_hex1 req1 auth1 db
    | HTTPException c d => (HTTPException c d, db)
    | Uncaught e => (Uncaught e, db)
    end in
  let r2 :=
    match count2 with
    | Ok _ => create_api_key_insert env2 token_hex2 req2 auth2 r1.2
    | HTTPException c d => (HTTPException c d, r1.2)
    | Uncaught e => (Uncaught e, r1.2)
    end in
  (r1.1, r2.1, r2.2).

(** [api.revoked = True; db.commit()]: the row with the primary key of
    [api] is written. *)
Definition commit_revoked (api : APIKey.t) (rows : list APIKey.t) : list APIKey.t :=
  (λ a, if decide (APIKey.id a = APIKey.id api)
        then APIKey.set_revoked true a else a) <$> rows.

Definition revoke_api_key (key_id : Z) (auth : Auth) (db : DB)
  : result (string * Z) * DB :=
  if decide (auth_type auth ≠ "jwt")
  then (HTTPException 403 "Only JWT users can revoke keys", db)
  else
    let user := auth_user auth in
    match first (λ a, APIKey.id a = key_id ∧ APIKey.user_id a = User.id user)
                (api_keys db) with
    | None => (HTTPException 404 "API key not found", db)
    | Some api =>
        (Ok ("revoked", APIKey.id api),
         mkDB (orgs db) (users db) (commit_revoked api (api_keys db)))
    end.

(** ** Protected endpoint with rate limiting *)

Definition rate_detail (info : option RateInfo) : string :=
  match info with
  | Some i => "rate limit exceeded (limit=" +:+ Py.str (limit i)
              +:+ ", current=" +:+ Py.str (current i) +:+ ")"
  | None => EmptyString
  end.

Definition key_scopes (api_obj : APIKey.t) : list string :=
  match truthy (APIKey.scopes api_obj) with
  | Some s => Py.split "," s
  | None => []
  end.

Definition generate (env : Env) (payload : string) (auth : Auth)
    (rcli : Redis.store) : result (string * string) * Redis.store :=
  let user := auth_user auth in
  (* Rate limiting: check by user.id and user.user_type *)
  let '((allowed, info), rcli1) :=
    rate_limit_check_by_user env (User.id user) (value (User.user_type user)) rcli in
  if negb allowed then (HTTPException 429 (rate_detail info), rcli1)
  else
    match auth with
    | AuthApiKey _ api_obj =>
        (* If API Key auth, validate scopes *)
        let scopes := key_scopes api_obj in
        if decide ("generate:text" ∉ scopes)
        then (HTTPException 403 "API key missing required scope", rcli1)
        else
          (Ok ("Generated content for org " +:+ Py.str (User.org_id user)
               +:+ " by api_key user " +:+ User.username user, payload), rcli1)
    | AuthJwt _ _ =>
        (Ok ("Generated content for org " +:+ Py.str (User.org_id user)
             +:+ " by user " +:+ User.username user, payload), rcli1)
    end.

(** ** The routes: the framework resolves the dependency, then calls the
    handler; an exception of the dependency ends the request. *)

Definition post_generate (env : Env) (x_api_key authorization : option string)
    (payload : string) (db : DB) (rcli : Redis.store)
  : result (string * string) * Redis.store :=
  match get_current_user env x_api_key authorization db with
  | Ok auth => generate env payload auth rcli
  | HTTPException c d => (HTTPException c d, rcli)
  | Uncaught e => (Uncaught e, rcli)
  end.

Definition post_apikeys (env : Env) (x_api_key authorization : option string)
    (token_hex : string) (req : APIKeyCreateReq.t) (db : DB)
  : result APIKeyOut.t * DB :=
  match get_current_user env x_api_key authorization db with
  | Ok auth => create_api_key env token_hex req auth db
  | HTTPException c d => (HTTPException c d, db)
  | Uncaught e => (Uncaught e, db)
  end.

Definition delete_apikeys (env : Env) (x_api_key authorization : option string)
    (key_id : Z) (db : DB) : result (string * Z) * DB :=
  match get_current_user env x_api_key authorization db with
  | Ok auth => revoke_api_key key_id auth db
  | HTTPException c d => (HTTPException c d, db)
  | Uncaught e => (Uncaught e, db)
  end.

(** ** The requests that write to the database *)

Inductive request :=
  | Signup (payload : SignupReq.t)
  | CreateKey (x_api_key authorization : option string) (token_hex : string)
              (req : APIKeyCreateReq.t)
  | RevokeKey (x_api_key authorization : option string) (key_id : Z).

Definition serve (env : Env) (r : request) (db : DB) : DB :=
  match r with
  | Signup payload => (signup env payload db).2
  | CreateKey k a token_hex req => (post_apikeys env k a token_hex req db).2
  | RevokeKey k a key_id => (delete_apikeys env k a key_id db).2
  end.

(** The database after a run of requests, each in its own environment. *)
Fixpoint serve_all (rs : list (Env * request)) (db : DB) : DB :=
  match rs with
  | [] => db
  | (env, r) :: rs' => serve_all rs' (serve env r db)
  end.

(** ** Invariants of the tables *)

(** [key_hash] is declared unique. *)
Definition unique_key_hash (db : DB) : Prop :=
  NoDup (APIKey.key_hash <$> api_keys db).

(** A revoked key with the hash [h] is in the table. *)
Definition has_revoked (h : string) (db : DB) : Prop :=
  ∃ a, a ∈ api_keys db ∧ APIKey.key_hash a = h ∧ APIKey.revoked a = true.

(** An administrator moves a user to another organization, outside the
    program: [UPDATE users SET org_id = new_org WHERE id = user_id]. *)
Definition reparent (user_id new_org : Z) (db : DB) : DB :=
  mkDB (orgs db)
       ((λ u, if decide (User.id u = user_id)
              then User.mk (User.id u) new_org (User.username u)
                           (User.hashed_password u) (User.is_admin u)
                           (User.user_type u) (User.created_at u)
              else u) <$> users db)
       (api_keys db).

(** ** Startup: demo data *)

Definition startup (env : Env) (db : DB) : DB :=
  let '(org, db1) :=
    match first (λ o, Org.name o = "demo_org") (orgs db) with
    | Some org => (org, db)
    | None =>
        let org := Org.mk (next_id (Org.id <$> orgs db)) "demo_org" (utcnow env) in
        (org, mkDB (orgs db ++ [org]) (users db) (api_keys db))
    end in
  match first (λ u, User.username u = "admin") (users db1) with
  | Some _ => db1
  | None =>
      let admin :=
        User.mk (next_id (User.id <$> users db1)) (Org.id org) "admin"
                (pwd_context_hash "password") true ENTERPRISE (utcnow env) in
      mkDB (orgs db1) (users db1 ++ [admin]) (api_keys db1)
  end.

(** ** The listings *)

Definition list_api_keys (auth : Auth) (db : DB) : result (list APIKeyOut.t) :=
  if decide (auth_type auth ≠ "jwt")
  then HTTPException 403 "Only JWT users can list keys"
  else
    let user := auth_user auth in
    let apis := filter (λ a, APIKey.user_id a = User.id user) (api_keys db) in
    Ok ((λ a, APIKeyOut.mk (APIKey.id a) (APIKey.org_id a) (APIKey.user_id a)
                (APIKey.key_preview a) (APIKey.name a) (key_scopes a)
                (APIKey.revoked a) (APIKey.created_at a) (APIKey.expires_at a))
        <$> apis).

Definition list_org_keys (org_id : Z) (auth : Auth) (db : DB)
  : result (list OrgKeyOut.t) :=
  let user := auth_user auth in
  if decide (User.org_id user ≠ org_id)
  then HTTPException 403 "Cross-tenant access denied"
  else if negb (User.is_admin user)
  then HTTPException 403 "Admin only"
  else
    let keys := filter (λ a, APIKey.org_id a = org_id) (api_keys db) in
    Ok ((λ a, OrgKeyOut.mk (APIKey.id a) (APIKey.user_id a) (APIKey.key_preview a)
                (APIKey.name a) (key_scopes a) (APIKey.revoked a)
                (APIKey.created_at a))
        <$> keys).

Definition get_apikeys (env : Env) (x_api_key authorization : option string)
    (db : DB) : result (list APIKeyOut.t) :=
  auth ← get_current_user env x_api_key authorization db; list_api_keys auth db.

Definition get_org_keys (env : Env) (x_api_key authorization : option string)
    (org_id : Z) (db : DB) : result (list OrgKeyOut.t) :=
  auth ← get_current_user env x_api_key authorization db;
  list_org_keys org_id auth db.

(** ** The life of the database: starts of the process and requests *)

Inductive event := Boot | Req (r : request).

Definition handle (env : Env) (ev : event) (db : DB) : DB :=
  match ev with
  | Boot => startup env db
  | Req r => serve env r db
  end.

Fixpoint handle_all (evs : list (Env * event)) (db : DB) : DB :=
  match evs with
  | [] => db
  | (env, ev) :: evs' => handle_all evs' (handle env ev db)
  end.

(** ** What the tables keep *)

Definition unique_ids (db : DB) : Prop :=
  NoDup (Org.id <$> orgs db) ∧ NoDup (User.id <$> users db)
  ∧ NoDup (APIKey.id <$> api_keys db).

Definition unique_names (db : DB) : Prop :=
  NoDup (Org.name <$> orgs db) ∧ NoDup (User.username <$> users db).

(** Every user has its organization, every key its user, and a key is
    in the organization of its user. *)
Definition references_ok (db : DB) : Prop :=
  (∀ u, u ∈ users db → ∃ o, o ∈ orgs db ∧ Org.id o = User.org_id u)
  ∧ (∀ a, a ∈ api_keys db →
       ∃ u, u ∈ users db ∧ User.id u = APIKey.user_id a
            ∧ User.org_id u = APIKey.org_id a).

Definition live_keys (user_id : Z) (db : DB) : Z :=
  count (λ a, APIKey.user_id a = user_id ∧ APIKey.revoked a = false) (api_keys db).

(** No user has more live keys than the quota of the user type.  The
    requests keep this when they are served one after the other. *)
Definition within_quota (db : DB) : Prop :=
  ∀ u, u ∈ users db →
    live_keys (User.id u) db ≤ Py.get API_KEY_QUOTA (value (User.user_type u)) 10.

Definition consistent (db : DB) : Prop :=
  unique_ids db ∧ unique_names db ∧ unique_key_hash db ∧ references_ok db
  ∧ within_quota db.

(** The character [c] does not occur in the string. *)
Fixpoint lacks (c : ascii) (s : string) : bool :=
  match s with
  | EmptyString => true
  | String c' s' => negb (bool_decide (c' = c)) && lacks c s'
  end.

End App.

(** ** A platform to run the program on

    The handlers do not look inside the values the libraries return, so
    examples run on stand-ins: a tagged string for each digest, a decimal
    reader for [int], and a token service that knows one token. *)

Module Demo.

Definition digit (c : ascii) : option Z :=
  let n := Ascii.nat_of_ascii c in
  if ((48 <=? n) && (n <=? 57))%nat then Some (Z.of_nat (n - 48)) else None.

Fixpoint digits (acc : Z) (s : string) : option Z :=
  match s with
  | EmptyString => Some acc
  | String c s' =>
      match digit c with
      | Some d => digits (10 * acc + d) s'
      | None => None
      end
  end.

Definition parse_int (s : string) : option Z :=
  match s with
  | EmptyString => None
  | String c s' =>
      if decide (c = "-"%char)
      then match s' with
           | EmptyString => None
           | _ => Z.opp <$> digits 0 s'
           end
      else digits 0 s
  end.

Definition platform (tok : string) (c : claims) : Platform := {|
  SECRET_KEY := "dev-jwt-secret";
  API_KEY_HASH_SECRET := "dev-api-hash-secret";
  hmac_sha256_hex := λ key msg, "hmac(" +:+ msg +:+ ")";
  pwd_context_hash := λ pw, "bcrypt(" +:+ pw +:+ ")";
  pwd_context_verify := λ pw h, bool_decide (h = "bcrypt(" +:+ pw +:+ ")");
  int_of_str := parse_int;
  jwt_encode := λ _ _, tok;
  jws_verify := λ t key, if decide (t = tok) then Some c else None;
  claims_valid_before_exp := λ _ _, true;
  claims_valid_after_exp := λ _, true
|}.

(** One organization, a NORMAL user [alice] in it, and one key of hers
    with the scopes given. *)
Definition alice : User.t :=
  User.mk 1 1 "alice" "bcrypt(pw)" false NORMAL 0.

Definition alice_key (scopes : string) (revoked : bool) : APIKey.t :=
  APIKey.mk 1 1 1 "hmac(sk-a1)" "sk-a1" None (Some scopes) revoked 0 None.

Definition db1 (scopes : string) (revoked : bool) : DB :=
  mkDB [Org.mk 1 "acme" 0] [alice] [alice_key scopes revoked].

(** The claims of the token [alice] is given at time 0. *)
Definition alice_claims : claims :=
  <["exp" := JInt 3600]> (<["iat" := JInt 0]>
  (<["sub" := JStr "1"]> (<["org" := JStr "1"]> (<["user_type" := JStr "NORMAL"]> ∅)))).

Definition P : Platform := platform "tok" alice_claims.

(** How [db1 "tts" false] comes about: [alice] signs up at time 0 and
    creates a key with her token. *)
Definition history : list (Env * event) :=
  [(healthy 0, Req (Signup (SignupReq.mk "acme" "alice" "pw" None None)));
   (healthy 0, Req (CreateKey None (Some "Bearer tok") "a1"
                      (APIKeyCreateReq.mk None None (Some ["tts"]))))].

(** [alice] goes on to create eight more keys: she has nine, one below
    the quota of a NORMAL user. *)
Definition busy_history : list (Env * event) :=
  history
  ++ ((λ token_hex,
         (healthy 0, Req (CreateKey None (Some "Bearer tok") token_hex
                            (APIKeyCreateReq.mk None None None))))
      <$> ["a2"; "a3"; "a4"; "a5"; "a6"; "a7"; "a8"; "a9"]).

End Demo.

(** * Properties *)

(** ** The limiter *)

Lemma quota_positive (user_type : string) :
  user_type ≠ value ENTERPRISE → 0 < Py.get API_KEY_QUOTA user_type 10.
Proof.
  intros Hne. unfold Py.get, API_KEY_QUOTA.
  rewrite !lookup_insert, lookup_empty.
  repeat case_decide; simpl in *; subst; try lia. done.
Qed.

Lemma same_window_close (t t' : Z) :
  int_seconds t = int_seconds t' → t' < t + 2 * SECOND.
Proof.
  unfold int_seconds, SECOND. intros Heq.
  pose proof (Z.quot_rem' t 1000000) as Ht.
  pose proof (Z.quot_rem' t' 1000000) as Ht'.
  assert (Z.abs (Z.rem t 1000000) < 1000000) as Hr
    by (pose proof (Z.rem_bound_abs t 1000000); lia).
  assert (Z.abs (Z.rem t' 1000000) < 1000000) as Hr'
    by (pose proof (Z.rem_bound_abs t' 1000000); lia).
  rewrite Heq in Ht. lia.
Qed.

Lemma rate_limit_healthy (t user_id : Z) (user_type : string) (rcli : Redis.store) :
  user_type ≠ value ENTERPRISE →
  rate_limit_check_by_user (healthy t) user_id user_type rcli =
    let key := rl_key user_id (int_seconds t) in
    let cur := (Redis.incr t key rcli).1 in
    let r1 := (Redis.incr t key rcli).2 in
    (verdict (Py.get API_KEY_QUOTA user_type 10) cur,
     if decide (cur = 1) then Redis.expire t key 2 r1 else r1).
Proof.
  intros Hne. pose proof (quota_positive _ Hne) as Hpos.
  unfold rate_limit_check_by_user, rcli_incr, rcli_expire, verdict. simpl.
  rewrite decide_False by done. rewrite decide_False by lia.
  destruct (Redis.incr t _ rcli) as [cur r1]. simpl.
  repeat case_decide; done.
Qed.

(** A healthy call counts first: the counter holds the old count plus one
    afterwards, whatever the answer. *)
Lemma admit_counts_first (t user_id : Z) (user_type : string) (rcli : Redis.store) :
  user_type ≠ value ENTERPRISE →
  let key := rl_key user_id (int_seconds t) in
  let cur := default 0 (Redis.val <$> Redis.get t key rcli) + 1 in
  ∃ rcli',
    rate_limit_check_by_user (healthy t) user_id user_type rcli
      = (verdict (Py.get API_KEY_QUOTA user_type 10) cur, rcli')
    ∧ Redis.val <$> Redis.get t key rcli' = Some cur.
Proof.
  intros Hne key cur. rewrite rate_limit_healthy by done. fold key.
  assert (0 < SECOND) as Hs by (unfold SECOND; lia).
  unfold Redis.incr. subst cur.
  destruct (Redis.get t key rcli) as [e|] eqn:Hget; simpl.
  - assert (Redis.live t e = true) as Hlive.
    { unfold Redis.get in Hget. destruct (rcli !! key) as [e0|]; [|done].
      destruct (Redis.live t e0) eqn:?; congruence. }
    case_decide as H1; eexists; (split; [reflexivity|]).
    + unfold Redis.expire, Redis.get. rewrite lookup_insert_eq.
      unfold Redis.live at 1. simpl. fold (Redis.live t e). rewrite Hlive.
      rewrite lookup_insert_eq. unfold Redis.live. simpl.
      rewrite bool_decide_eq_true_2 by lia. simpl. congruence.
    + unfold Redis.get. rewrite lookup_insert_eq.
      unfold Redis.live. simpl. fold (Redis.live t e). by rewrite Hlive.
  - eexists; split; [reflexivity|].
    unfold Redis.expire, Redis.get. rewrite lookup_insert_eq. simpl.
    rewrite lookup_insert_eq. unfold Redis.live. simpl.
    by rewrite bool_decide_eq_true_2 by lia.
Qed.

Lemma admit_step (user_id w t c : Z) (user_type : string) (rcli : Redis.store) :
  user_type ≠ value ENTERPRISE →
  int_seconds t = w →
  counted w (rl_key user_id w) c rcli →
  ∃ rcli',
    rate_limit_check_by_user (healthy t) user_id user_type rcli
      = (verdict (Py.get API_KEY_QUOTA user_type 10) (c + 1), rcli')
    ∧ counted w (rl_key user_id w) (c + 1) rcli'.
Proof.
  intros Hne Hw Hc. rewrite rate_limit_healthy by done. rewrite Hw.
  unfold counted in Hc. unfold Redis.incr, Redis.get.
  destruct (rcli !! rl_key user_id w) as [e|] eqn:Hlook.
  - destruct Hc as (Hv & Hge & Hlive). rewrite (Hlive t Hw). simpl.
    rewrite decide_False by lia. rewrite Hv. eexists; split; [reflexivity|].
    unfold counted. rewrite lookup_insert_eq. simpl. repeat split; [lia|].
    intros t' Ht'. apply (Hlive t' Ht').
  - subst c. simpl. eexists; split; [reflexivity|].
    unfold counted, Redis.expire, Redis.get. rewrite lookup_insert_eq. simpl.
    rewrite lookup_insert_eq. simpl. repeat split; [lia|].
    intros t' Ht'. unfold Redis.live. simpl. apply bool_decide_eq_true_2.
    apply same_window_close. congruence.
Qed.

Lemma admit_all_window (user_id w : Z) (user_type : string) (times : list Z) :
  user_type ≠ value ENTERPRISE →
  Forall (λ t, int_seconds t = w) times →
  ∀ c rcli, counted w (rl_key user_id w) c rcli →
  ∃ rcli',
    admit_all user_id user_type (healthy <$> times) rcli
      = (verdicts (Py.get API_KEY_QUOTA user_type 10) c (length times), rcli')
    ∧ counted w (rl_key user_id w) (c + Z.of_nat (length times)) rcli'.
Proof.
  intros Hne Hall. induction Hall as [|t times Ht _ IH]; intros c rcli Hc.
  - exists rcli. simpl. split; [done|]. by rewrite Z.add_0_r.
  - destruct (admit_step user_id w t c user_type rcli Hne Ht Hc) as (r1 & Hstep & Hc1).
    destruct (IH _ _ Hc1) as (r2 & Hrest & Hc2).
    exists r2. cbn [fmap list_fmap admit_all length verdicts].
    change (list_fmap _ _ healthy times) with (healthy <$> times).
    rewrite Hstep, Hrest. split; [done|].
    replace (c + Z.of_nat (S (length times))) with (c + 1 + Z.of_nat (length times)) by lia.
    done.
Qed.

Lemma admitted_verdicts (limit : Z) (n : nat) (c : Z) :
  0 ≤ c →
  Z.of_nat (admitted (verdicts limit c n)) = Z.min (Z.of_nat n) (Z.max 0 (limit - c)).
Proof.
  revert c. induction n as [|n IH]; intros c Hc.
  - simpl. unfold admitted. simpl. lia.
  - cbn [verdicts]. unfold admitted in *. unfold verdict at 1.
    case_decide; rewrite filter_cons; simpl.
    + rewrite IH by lia. lia.
    + rewrite Nat2Z.inj_succ, IH by lia. lia.
Qed.

Lemma admitted_throttled (vs : list (bool * option RateInfo)) :
  (admitted vs + throttled vs)%nat = length vs.
Proof.
  unfold admitted, throttled. induction vs as [|[[] i] vs IH]; [done|..];
    rewrite !filter_cons; simpl.
  - simpl in *. lia.
  - simpl in *. lia.
Qed.

Lemma length_verdicts (limit c : Z) (n : nat) : length (verdicts limit c n) = n.
Proof. revert c. induction n; intros; simpl; [done|]. by rewrite IHn. Qed.

(** *** Calls that overlap *)

Lemma run_call_limiter (env : Env) (user_id : Z) (user_type : string)
    (rcli : Redis.store) :
  run_call env (limiter_call (int_seconds (utcnow env)) user_id user_type) rcli
  = rate_limit_check_by_user env user_id user_type rcli.
Proof.
  unfold limiter_call, rate_limit_check_by_user.
  case_decide; [done|]. case_decide; [done|]. simpl.
  destruct (rcli_incr env _ rcli) as [[cur|] r1]; [|done].
  case_decide; simpl; [|by case_decide].
  destruct (rcli_expire env _ 2 r1) as [[[]|] r2]; [|done].
  by case_decide.
Qed.

Lemma limiter_call_at (w user_id : Z) (user_type : string) :
  user_type ≠ value ENTERPRISE →
  call_at (Py.get API_KEY_QUOTA user_type 10) (rl_key user_id w)
          (limiter_call w user_id user_type) None.
Proof.
  intros Hne. pose proof (quota_positive _ Hne) as Hpos.
  unfold limiter_call. rewrite decide_False by done. rewrite decide_False by lia.
  apply call_new. intros cur. simpl.
  assert ((if decide (cur > Py.get API_KEY_QUOTA user_type 10)
           then Done (false, Some (mkRateInfo (Py.get API_KEY_QUOTA user_type 10) cur))
           else Done (true, None))
          = Done (verdict (Py.get API_KEY_QUOTA user_type 10) cur)) as Hcmp
    by (unfold verdict; by case_decide).
  destruct (decide (cur = 1)) as [->|Hone].
  - apply call_first. exact Hcmp.
  - rewrite Hcmp. apply call_done.
Qed.

Lemma incr_counted (w t m : Z) (key : string) (rcli : Redis.store) :
  counted w key m rcli → int_seconds t = w →
  (Redis.incr t key rcli).1 = m + 1
  ∧ counted w key (m + 1) (Redis.incr t key rcli).2.
Proof.
  unfold counted, Redis.incr, Redis.get. intros Hc Hw.
  destruct (rcli !! key) as [e|].
  - destruct Hc as (Hv & Hge & Hlive). rewrite (Hlive t Hw). simpl.
    rewrite lookup_insert_eq. simpl. repeat split; [lia..|done].
  - subst m. simpl. rewrite lookup_insert_eq. simpl. repeat split; lia.
Qed.

Lemma expire_counted (w t m : Z) (key : string) (rcli : Redis.store) :
  counted w key m rcli → int_seconds t = w →
  counted w key m (Redis.expire t key 2 rcli).
Proof.
  unfold counted, Redis.expire, Redis.get. intros Hc Hw.
  destruct (rcli !! key) as [e|] eqn:Hlook.
  - destruct Hc as (Hv & Hge & Hlive). rewrite (Hlive t Hw).
    rewrite lookup_insert_eq. simpl. repeat split; [done..|].
    intros t' Ht'. unfold Redis.live. simpl. apply bool_decide_eq_true_2.
    apply same_window_close. congruence.
  - by rewrite Hlook.
Qed.

Lemma omap_insert_fresh (curs : list (option Z)) (i : nat) (x : Z) :
  curs !! i = Some None →
  omap id (<[i := Some x]> curs) ≡ₚ x :: omap id curs.
Proof.
  revert i. induction curs as [|o curs IH]; intros [|i] Hi; try done.
  - simpl in Hi. injection Hi as ->. done.
  - simpl in Hi. cbn [list_insert]. destruct o as [y|].
    + cbn. rewrite (IH i Hi). apply Permutation_swap.
    + cbn. by apply IH.
Qed.

Lemma omap_replicate_None (n : nat) : omap id (replicate n (@None Z)) = [].
Proof. induction n as [|n IH]; [done|]. rewrite replicate_S. cbn. exact IH. Qed.

Lemma step_inv (limit w t : Z) (key : string) (calls : list call)
    (curs : list (option Z)) (rcli : Redis.store) (i : nat) (c : call) :
  window_inv limit w key calls curs rcli → int_seconds t = w →
  calls !! i = Some c →
  ∃ curs', window_inv limit w key (<[i := (step_call t c rcli).1]> calls) curs'
             (step_call t c rcli).2.
Proof.
  intros (Hall & Hperm & Hcount) Hw Hi.
  destruct (Forall2_lookup_l _ _ _ _ _ Hall Hi) as (oc & Hoc & Hat).
  destruct Hat as [k Hk|k Hk|cur].
  - (* the INCR of a new call *)
    destruct (incr_counted w t _ key rcli Hcount Hw) as (Hcur & Hcount').
    simpl. destruct (Redis.incr t key rcli) as [cur r1]. simpl in *. subst cur.
    set (m := Z.of_nat (length (omap id curs))) in *.
    exists (<[i := Some (m + 1)]> curs).
    pose proof (omap_insert_fresh curs i (m + 1) Hoc) as Hins.
    assert (Z.of_nat (length (omap id (<[i := Some (m + 1)]> curs))) = m + 1) as Hlen.
    { rewrite Hins. simpl. lia. }
    split; [|split].
    + apply Forall2_insert; [done|]. apply Hk.
    + rewrite Hlen, Hins.
      replace (m + 1) with (Z.of_nat (S (length (omap id curs)))) at 2 by lia.
      rewrite seqZ_S. rewrite <- Permutation_cons_append.
      fold m. replace (1 + m) with (m + 1) by lia. by constructor.
    + by rewrite Hlen.
  - (* the EXPIRE of the first call *)
    simpl. rewrite Hk. exists curs. split; [|split]; [|done|].
    + rewrite <- (list_insert_id curs i (Some 1)) by done.
      apply Forall2_insert; [done|]. apply call_done.
    + by apply expire_counted.
  - simpl. exists curs. rewrite list_insert_id by done. done.
Qed.

Lemma run_schedule_inv (limit w : Z) (key : string) (sched : list (nat * Z)) :
  Forall (λ it, int_seconds it.2 = w) sched →
  ∀ calls curs rcli,
    window_inv limit w key calls curs rcli →
    ∃ curs', window_inv limit w key (run_schedule sched calls rcli).1 curs'
               (run_schedule sched calls rcli).2
             ∧ length (run_schedule sched calls rcli).1 = length calls.
Proof.
  intros Hsched. induction Hsched as [|[i t] sched Ht _ IH]; intros calls curs rcli Hinv.
  - by exists curs.
  - cbn [run_schedule]. destruct (calls !! i) as [c|] eqn:Hi; [|by apply (IH _ curs)].
    destruct (step_inv limit w t key calls curs rcli i c Hinv Ht Hi) as (curs1 & Hinv1).
    destruct (step_call t c rcli) as [c' r1]. simpl in Hinv1.
    destruct (IH _ _ _ Hinv1) as (curs' & Hinv' & Hlen).
    exists curs'. split; [done|]. by rewrite Hlen, length_insert.
Qed.

Lemma finished_verdicts (limit : Z) (key : string) (calls : list call)
    (curs : list (option Z)) :
  Forall2 (call_at limit key) calls curs →
  Forall (λ c, is_Some (verdict_of c)) calls →
  omap verdict_of calls = verdict limit <$> omap id curs
  ∧ length (omap id curs) = length calls.
Proof.
  intros Hall. induction Hall as [|c oc calls curs Hat _ IH]; intros Hdone; [done|].
  apply Forall_cons in Hdone as (Hc & Hdone). destruct (IH Hdone) as (Hv & Hl).
  destruct Hat as [k Hk|k Hk|cur]; [by destruct Hc..|].
  cbn. rewrite Hv, Hl. done.
Qed.

Lemma verdicts_seqZ (limit c : Z) (n : nat) :
  verdict limit <$> seqZ (c + 1) (Z.of_nat n) = verdicts limit c n.
Proof.
  revert c. induction n as [|n IH]; intros c; [done|].
  rewrite seqZ_cons by lia. cbn [fmap list_fmap verdicts]. f_equal.
  replace (Z.pred (Z.of_nat (S n))) with (Z.of_nat n) by lia.
  replace (Z.succ (c + 1)) with (c + 1 + 1) by lia. apply IH.
Qed.

(** However the commands of [n] calls of one window are interleaved, the
    calls that are done were admitted up to the limit. *)
Lemma overlapping_calls (user_id w : Z) (user_type : string) (n : nat)
    (sched : list (nat * Z)) (rcli : Redis.store) :
  user_type ≠ value ENTERPRISE →
  Forall (λ it, int_seconds it.2 = w) sched →
  rcli !! rl_key user_id w = None →
  let calls := (run_schedule sched (replicate n (limiter_call w user_id user_type)) rcli).1 in
  Forall (λ c, is_Some (verdict_of c)) calls →
  length (omap verdict_of calls) = n
  ∧ Z.of_nat (admitted (omap verdict_of calls))
    = Z.min (Z.of_nat n) (Py.get API_KEY_QUOTA user_type 10).
Proof.
  intros Hne Hsched Hfresh calls Hdone.
  pose proof (quota_positive _ Hne) as Hpos.
  set (limit := Py.get API_KEY_QUOTA user_type 10) in *.
  pose proof (omap_replicate_None n) as Hnil.
  assert (window_inv limit w (rl_key user_id w)
            (replicate n (limiter_call w user_id user_type)) (replicate n None) rcli)
    as Hinit.
  { split; [|split].
    - apply Forall2_replicate. by apply limiter_call_at.
    - by rewrite Hnil.
    - rewrite Hnil. unfold counted. by rewrite Hfresh. }
  destruct (run_schedule_inv limit w _ sched Hsched _ _ _ Hinit)
    as (curs & (Hall & Hperm & _) & Hlen).
  fold calls in Hall, Hlen. rewrite length_replicate in Hlen.
  destruct (finished_verdicts limit _ calls curs Hall Hdone) as (Hv & Hl).
  rewrite Hl, Hlen in Hperm. rewrite Hv. split.
  - by rewrite length_fmap, Hl.
  - unfold admitted. rewrite Hperm.
    change (seqZ 1 (Z.of_nat n)) with (seqZ (0 + 1) (Z.of_nat n)).
    rewrite verdicts_seqZ. fold (admitted (verdicts limit 0 n)).
    rewrite admitted_verdicts by lia. lia.
Qed.

(** C3. A call of a limited user with a backend that answers counts
    first and compares afterwards: the counter of its window holds the old
    count plus one whatever the answer, and the answer is
    [(False, {limit, current})] with the new count exactly when that count
    is above the limit.  Hence the calls of one user that fall into one
    window that was not counted yet admit [min n limit] of them and never
    more than [limit], in any order of their times; with a limit of 10,
    fifteen calls give ten admitted and five throttled.  The same count
    holds when the Redis commands of the calls are interleaved in any way
    within the window. *)
Theorem fixed_window_limiter (user_id w : Z) (user_type : string)
    (times : list Z) (rcli : Redis.store) :
  user_type ≠ value ENTERPRISE →
  Forall (λ t, int_seconds t = w) times →
  rcli !! rl_key user_id w = None →
  let limit := Py.get API_KEY_QUOTA user_type 10 in
  let vs := (admit_all user_id user_type (healthy <$> times) rcli).1 in
  (∀ t r,
     let key := rl_key user_id (int_seconds t) in
     let cur := default 0 (Redis.val <$> Redis.get t key r) + 1 in
     ∃ r',
       rate_limit_check_by_user (healthy t) user_id user_type r
         = (if decide (cur > limit)
            then (false, Some (mkRateInfo limit cur)) else (true, None), r')
       ∧ Redis.val <$> Redis.get t key r' = Some cur)
  ∧ Z.of_nat (admitted vs) = Z.min (Z.of_nat (length times)) limit
  ∧ Z.of_nat (admitted vs) ≤ limit
  ∧ (admitted vs + throttled vs)%nat = length times
  ∧ (limit = 10 → length times = 15%nat →
     admitted vs = 10%nat ∧ throttled vs = 5%nat)
  ∧ (∀ env r,
       run_call env (limiter_call (int_seconds (utcnow env)) user_id user_type) r
       = rate_limit_check_by_user env user_id user_type r)
  ∧ (∀ n sched,
       Forall (λ it, int_seconds it.2 = w) sched →
       let calls :=
         (run_schedule sched (replicate n (limiter_call w user_id user_type)) rcli).1 in
       Forall (λ c, is_Some (verdict_of c)) calls →
       length (omap verdict_of calls) = n
       ∧ Z.of_nat (admitted (omap verdict_of calls)) = Z.min (Z.of_nat n) limit).
Proof.
  intros Hne Hall Hfresh limit vs.
  pose proof (quota_positive _ Hne) as Hpos. fold limit in Hpos.
  assert (counted w (rl_key user_id w) 0 rcli) as Hc
    by (unfold counted; by rewrite Hfresh).
  destruct (admit_all_window user_id w user_type times Hne Hall 0 rcli Hc)
    as (r' & Hrun & _).
  assert (vs = verdicts limit 0 (length times)) as Hvs
    by (subst vs; by rewrite Hrun).
  assert (Z.of_nat (admitted vs) = Z.min (Z.of_nat (length times)) limit) as Hadm.
  { rewrite Hvs, admitted_verdicts by lia. lia. }
  assert ((admitted vs + throttled vs)%nat = length times) as Hsum.
  { rewrite admitted_throttled, Hvs. apply length_verdicts. }
  split; [|split; [|split; [|split; [|split; [|split]]]]]; [|done|lia|done| | |].
  - intros t r. apply (admit_counts_first t user_id user_type r Hne).
  - intros Hl Hn. rewrite Hl, Hn in Hadm. rewrite Hn in Hsum. lia.
  - intros env r. apply run_call_limiter.
  - intros n sched Hsched. by apply overlapping_calls.
Qed.

(** Fifteen calls of user 7 in the first second: one after the other,
    and with the EXPIRE of the first call sent after the INCR of the
    second. *)
Lemma fixed_window_limiter_witness :
  let vs := (admit_all 7 "NORMAL" (healthy <$> (Z.of_nat <$> seq 0 15)) ∅).1 in
  let sched := [(0%nat, 0); (1%nat, 1); (0%nat, 2)]
               ++ ((λ i : nat, (i, 3)) <$> seq 2 13) in
  let calls := (run_schedule sched (replicate 15 (limiter_call 0 7 "NORMAL")) ∅).1 in
  (admitted vs = 10%nat ∧ throttled vs = 5%nat)
  ∧ (length (omap verdict_of calls) = 15%nat
     ∧ Z.of_nat (admitted (omap verdict_of calls)) = 10).
Proof.
  assert ("NORMAL" ≠ value ENTERPRISE) as Hne by discriminate.
  assert (Forall (λ t, int_seconds t = 0) (Z.of_nat <$> seq 0 15)) as Htimes
    by (vm_compute; repeat constructor).
  pose proof (fixed_window_limiter 7 0 "NORMAL" (Z.of_nat <$> seq 0 15) ∅
                Hne Htimes eq_refl) as (_ & _ & _ & _ & Hseq & _ & Hsched).
  split.
  - apply Hseq; reflexivity.
  - apply (Hsched 15%nat).
    + vm_compute. repeat constructor.
    + vm_compute. repeat constructor; by eexists.
Defined.

(** C7. For an ENTERPRISE principal the limiter answers [(True, None)]
    and hands the counter store back as it was, whatever the backend
    does: any number of calls are all admitted and write nothing. *)
Theorem enterprise_bypasses_counter (envs : list Env) (env : Env) (user_id : Z)
    (rcli : Redis.store) :
  rate_limit_check_by_user env user_id (value ENTERPRISE) rcli = ((true, None), rcli)
  ∧ admit_all user_id (value ENTERPRISE) envs rcli
      = (replicate (length envs) (true, None), rcli).
Proof.
  split; [done|].
  remember (value ENTERPRISE) as ut eqn:Hut.
  induction envs as [|e envs IH]; [done|].
  cbn [admit_all length replicate]. unfold rate_limit_check_by_user at 1.
  rewrite decide_True by done. by rewrite IH.
Qed.

(** ** Queries *)

Lemma first_None {A} (P : A → Prop) `{∀ x, Decision (P x)} (l : list A) :
  first P l = None ↔ ∀ x, x ∈ l → ¬ P x.
Proof.
  unfold first. induction l as [|a l IH]; simpl.
  - split; [|done]. intros _ x Hx. by apply elem_of_nil in Hx.
  - rewrite filter_cons. destruct (decide (P a)) as [Ha|Ha]; simpl.
    + split; [done|]. intros Hall. exfalso. apply (Hall a); [left|done].
    + rewrite IH. split.
      * intros Hall x Hx. apply elem_of_cons in Hx as [->|Hx]; [done|by apply Hall].
      * intros Hall x Hx. apply Hall. by right.
Qed.

Lemma first_Some {A} (P : A → Prop) `{∀ x, Decision (P x)} (l : list A) (a : A) :
  first P l = Some a → a ∈ l ∧ P a.
Proof.
  unfold first. intros Hh. apply head_Some_elem_of in Hh.
  by apply list_elem_of_filter in Hh as [? ?].
Qed.

Lemma first_fmap {A} (P : A → Prop) `{∀ x, Decision (P x)} (f : A → A) (l : list A) :
  (∀ x, P (f x) ↔ P x) → first P (f <$> l) = f <$> first P l.
Proof.
  intros Hf. unfold first. induction l as [|a l IH]; [done|].
  rewrite fmap_cons, !filter_cons.
  destruct (decide (P a)) as [Ha|Ha].
  - rewrite decide_True by by apply Hf. done.
  - rewrite decide_False by by rewrite Hf. done.
Qed.

Lemma NoDup_fmap_eq {A B} (f : A → B) (l : list A) (x y : A) :
  NoDup (f <$> l) → x ∈ l → y ∈ l → f x = f y → x = y.
Proof.
  induction l as [|a l IH]; intros Hnd Hx Hy Hf; [by apply elem_of_nil in Hx|].
  rewrite fmap_cons in Hnd. apply NoDup_cons in Hnd as (Hnotin & Hnd).
  apply elem_of_cons in Hx as [->|Hx]; apply elem_of_cons in Hy as [->|Hy].
  - done.
  - exfalso. apply Hnotin. rewrite Hf. by apply list_elem_of_fmap_2.
  - exfalso. apply Hnotin. rewrite <- Hf. by apply list_elem_of_fmap_2.
  - by apply IH.
Qed.

(** ** Revocation *)

Lemma commit_revoked_twice (api : APIKey.t) (rows : list APIKey.t) :
  commit_revoked (APIKey.set_revoked true api) (commit_revoked api rows)
  = commit_revoked api rows.
Proof.
  unfold commit_revoked. rewrite <- list_fmap_compose.
  apply list_fmap_ext. intros _ a _. simpl.
  destruct (decide (APIKey.id a = APIKey.id api)) as [Heq|Hne]; simpl.
  - by rewrite decide_True.
  - by rewrite decide_False.
Qed.

Lemma first_commit_revoked (api : APIKey.t) (key_id uid : Z) (rows : list APIKey.t) :
  first (λ a, APIKey.id a = key_id ∧ APIKey.user_id a = uid) rows = Some api →
  first (λ a, APIKey.id a = key_id ∧ APIKey.user_id a = uid) (commit_revoked api rows)
  = Some (APIKey.set_revoked true api).
Proof.
  intros Hfirst. unfold commit_revoked.
  rewrite first_fmap.
  - rewrite Hfirst. simpl. by rewrite decide_True.
  - intros a. by destruct (decide (APIKey.id a = APIKey.id api)).
Qed.

(** C10. Revoking twice is revoking once: the second call of the same
    caller for the same key id gives the answer and the database of the
    first.  For a key the caller owns that answer is success, and afterwards
    the key is in the table with [revoked = true] and its other columns as
    they were: the table is the old one with the rows of that id revoked,
    organizations and users are as they were.  Revoking a key that is
    revoked already succeeds again, and with unique key ids it leaves the
    database exactly as it was. *)
Theorem revoke_idempotent (key_id : Z) (auth : Auth) (db : DB) :
  let r1 := revoke_api_key key_id auth db in
  revoke_api_key key_id auth r1.2 = r1
  ∧ (∀ a, auth_type auth = "jwt" → a ∈ api_keys db →
          APIKey.id a = key_id → APIKey.user_id a = User.id (auth_user auth) →
          r1.1 = Ok ("revoked", key_id)
          ∧ APIKey.set_revoked true a ∈ api_keys r1.2
          ∧ api_keys r1.2
            = (λ b, if decide (APIKey.id b = key_id)
                    then APIKey.set_revoked true b else b) <$> api_keys db
          ∧ orgs r1.2 = orgs db ∧ users r1.2 = users db
          ∧ (∀ a', a' ∈ api_keys r1.2 → APIKey.id a' = key_id →
                   APIKey.revoked a' = true)
          ∧ (NoDup (APIKey.id <$> api_keys db) → APIKey.revoked a = true →
             r1 = (Ok ("revoked", key_id), db))).
Proof.
  unfold revoke_api_key. split.
  - destruct (decide (auth_type auth ≠ "jwt")) as [Hjwt|Hjwt]; simpl; [done|].
    destruct (first _ (api_keys db)) as [api|] eqn:Hfirst; simpl.
    + rewrite (first_commit_revoked _ _ _ _ Hfirst). simpl.
      by rewrite commit_revoked_twice.
    + by rewrite Hfirst.
  - intros a Hjwt Ha Hid Huid. rewrite decide_False by (by intros ?).
    destruct (first _ (api_keys db)) as [api|] eqn:Hfirst; simpl.
    2:{ exfalso. rewrite first_None in Hfirst. by apply (Hfirst a). }
    apply first_Some in Hfirst as (Hin & Hkid & _).
    assert (commit_revoked api (api_keys db)
            = (λ b, if decide (APIKey.id b = key_id)
                    then APIKey.set_revoked true b else b) <$> api_keys db) as Hrows
      by (unfold commit_revoked; by rewrite Hkid).
    split; [by rewrite Hkid|]. split; [|split; [done|]].
    { rewrite Hrows. apply list_elem_of_fmap. exists a. split; [|done].
      by rewrite decide_True. }
    split; [done|]. split; [done|]. split.
    + intros a' Ha' Hid'. rewrite Hrows in Ha'.
      apply list_elem_of_fmap in Ha' as (a0 & -> & _).
      destruct (decide (APIKey.id a0 = key_id)) as [|Hne]; [done|].
      simpl in Hid'. congruence.
    + intros Hnd Hrev. rewrite Hkid, Hrows. f_equal.
      assert ((λ b, if decide (APIKey.id b = key_id)
                    then APIKey.set_revoked true b else b) <$> api_keys db
              = api_keys db) as ->; [|by destruct db].
      rewrite <- (list_fmap_id (api_keys db)) at 2.
      apply list_fmap_ext. intros i b Hb. simpl.
      destruct (decide (APIKey.id b = key_id)) as [Hbid|]; [|done].
      assert (b = a) as ->.
      { apply (NoDup_fmap_eq APIKey.id (api_keys db)); [done| |done|congruence].
        by eapply list_elem_of_lookup_2. }
      destruct a. simpl in Hrev. by subst.
Qed.

(** ** Key creation *)

Section Properties.
Context `{Platform}.

Lemma count_nonneg {A} (P : A → Prop) `{∀ x, Decision (P x)} (l : list A) :
  0 ≤ count P l.
Proof. unfold count. lia. Qed.

Lemma key_expires_at_ok (env : Env) (req : APIKeyCreateReq.t) (e : option Z) :
  key_expires_at env req = Ok e →
  e = match APIKeyCreateReq.expires_days req with
      | Some d => if decide (d = 0) then None else Some (utcnow env + d * DAY)
      | None => None
      end.
Proof.
  unfold key_expires_at, add_days.
  destruct (APIKeyCreateReq.expires_days req) as [d|]; [|congruence].
  destruct (decide (d = 0)); [congruence|].
  case_decide; simpl; congruence.
Qed.

Lemma key_expires_at_not_http (env : Env) (req : APIKeyCreateReq.t) (c : Z)
    (m : string) :
  key_expires_at env req ≠ HTTPException c m.
Proof.
  unfold key_expires_at, add_days.
  destruct (APIKeyCreateReq.expires_days req) as [d|]; [|done].
  destruct (decide (d = 0)); [done|]. by case_decide.
Qed.

(** The quota check of [create_api_key] on the table of the program:
    the request of a token holder is refused with the quota message exactly
    when the live keys are not below the entry of the user type, and then
    nothing is written; below it, with an expiry that is a date, a key whose
    hash is not in the table yet is appended. *)
Lemma create_api_key_quota (env : Env) (token_hex : string)
    (req : APIKeyCreateReq.t) (user : User.t) (payload : claims) (db : DB) :
  let quota := Py.get API_KEY_QUOTA (value (User.user_type user)) 10 in
  let live := count (λ a, APIKey.user_id a = User.id user ∧ APIKey.revoked a = false)
                    (api_keys db) in
  let r := create_api_key env token_hex req (AuthJwt user payload) db in
  (r.1 = HTTPException 403 (quota_detail (value (User.user_type user)) quota)
   ↔ live >= quota)
  ∧ (live >= quota → r.2 = db)
  ∧ (live < quota →
     first (λ a, APIKey.key_hash a = hash_key_hmac (gen_api_key "sk" token_hex))
           (api_keys db) = None →
     is_ok (key_expires_at env req) = true →
     ∃ out api,
       r = (Ok out, mkDB (orgs db) (users db) (api_keys db ++ [api]))
       ∧ APIKeyOut.key out = gen_api_key "sk" token_hex
       ∧ APIKey.key_hash api = hash_key_hmac (gen_api_key "sk" token_hex)
       ∧ APIKey.user_id api = User.id user
       ∧ APIKey.revoked api = false).
Proof.
  intros quota live r. subst r. unfold create_api_key.
  rewrite decide_False by (by intros ?).
  cbn [auth_user]. fold quota. fold live.
  destruct (decide (live >= quota)) as [Hge|Hlt].
  - split; [|split]; [done|done|lia].
  - split; [|split]; [| lia |].
    + split; [|done].
      destruct (key_expires_at env req) eqn:Hdate;
        [|by apply key_expires_at_not_http in Hdate|simpl; discriminate].
      destruct (first _ (api_keys db)); simpl; discriminate.
    + intros _ Hfresh Hdate.
      destruct (key_expires_at env req); [|discriminate..].
      rewrite Hfresh. eexists _, _. split; [reflexivity|]. done.
Qed.

Lemma count_commit_revoked (api a : APIKey.t) (uid : Z) (rows : list APIKey.t) :
  a ∈ rows → APIKey.id a = APIKey.id api →
  APIKey.user_id a = uid → APIKey.revoked a = false →
  count (λ a, APIKey.user_id a = uid ∧ APIKey.revoked a = false) (commit_revoked api rows)
  < count (λ a, APIKey.user_id a = uid ∧ APIKey.revoked a = false) rows.
Proof.
  intros Hin Hid Huid Hlive. unfold count, commit_revoked.
  assert (∀ l : list APIKey.t,
    (length (filter (λ a, APIKey.user_id a = uid ∧ APIKey.revoked a = false)
       ((λ a, if decide (APIKey.id a = APIKey.id api)
              then APIKey.set_revoked true a else a) <$> l))
     ≤ length (filter (λ a, APIKey.user_id a = uid ∧ APIKey.revoked a = false) l))%nat)
    as Hle.
  { induction l as [|b l IH]; [done|].
    rewrite fmap_cons, !filter_cons.
    destruct (decide (APIKey.id b = APIKey.id api)); simpl.
    - rewrite decide_False by (by intros [_ ?]). case_decide; simpl; lia.
    - case_decide; simpl; lia. }
  induction rows as [|b rows IH]; [by apply elem_of_nil in Hin|].
  rewrite fmap_cons, !filter_cons.
  apply elem_of_cons in Hin as [<-|Hin].
  - destruct (decide (APIKey.id a = APIKey.id api)); [|done]. simpl.
    rewrite decide_False by (by intros [_ ?]). rewrite decide_True by done.
    simpl. specialize (Hle rows). lia.
  - specialize (IH Hin).
    destruct (decide (APIKey.id b = APIKey.id api)); simpl.
    + rewrite decide_False by (by intros [_ ?]). case_decide; simpl; lia.
    + case_decide; simpl; lia.
Qed.

(** A NORMAL user at the limit of ten live keys is refused; once one of
    these keys is revoked, the same request goes through. *)
Lemma standard_quota_scenario (env : Env) (token_hex : string)
    (req : APIKeyCreateReq.t) (user : User.t) (payload : claims) (db : DB)
    (a : APIKey.t) :
  User.user_type user = NORMAL →
  count (λ a, APIKey.user_id a = User.id user ∧ APIKey.revoked a = false)
        (api_keys db) = 10 →
  a ∈ api_keys db → APIKey.user_id a = User.id user → APIKey.revoked a = false →
  first (λ a, APIKey.key_hash a = hash_key_hmac (gen_api_key "sk" token_hex))
        (api_keys db) = None →
  is_ok (key_expires_at env req) = true →
  let auth := AuthJwt user payload in
  create_api_key env token_hex req auth db
    = (HTTPException 403 "API key quota exceeded for user type NORMAL (quota=10)", db)
  ∧ ∃ db' out db'',
      revoke_api_key (APIKey.id a) auth db = (Ok ("revoked", APIKey.id a), db')
      ∧ create_api_key env token_hex req auth db' = (Ok out, db'').
Proof.
  intros Htype Hcount Hin Huid Hlive Hfresh Hdate auth.
  pose proof (create_api_key_quota env token_hex req user payload db) as (Hq & Hdb & _).
  rewrite Htype in Hq. change (Py.get API_KEY_QUOTA (value NORMAL) 10) with 10 in Hq.
  rewrite Htype in Hdb. change (Py.get API_KEY_QUOTA (value NORMAL) 10) with 10 in Hdb.
  split.
  - subst auth.
    destruct (create_api_key env token_hex req (AuthJwt user payload) db) as [r d].
    simpl in Hq, Hdb. f_equal; [apply Hq; lia | apply Hdb; lia].
  - subst auth. unfold revoke_api_key. rewrite decide_False by (by intros ?).
    cbn [auth_user].
    destruct (first (λ a0, APIKey.id a0 = _ ∧ _) (api_keys db)) as [api|] eqn:Hfirst.
    2:{ exfalso. rewrite first_None in Hfirst. apply (Hfirst a); [done|by split]. }
    pose proof (first_Some _ _ _ Hfirst) as (_ & Hid & _).
    set (db' := mkDB (orgs db) (users db) (commit_revoked api (api_keys db))).
    pose proof (create_api_key_quota env token_hex req user payload db') as (_ & _ & Hok).
    rewrite Htype in Hok. change (Py.get API_KEY_QUOTA (value NORMAL) 10) with 10 in Hok.
    destruct Hok as (out & api' & Hcreate & _).
    + pose proof (count_commit_revoked api a (User.id user) (api_keys db)
                    Hin (eq_sym Hid) Huid Hlive). simpl. lia.
    + simpl. unfold commit_revoked. rewrite first_fmap.
      * by rewrite Hfresh.
      * intros x. by destruct (decide (APIKey.id x = APIKey.id api)).
    + done.
    + exists db', out. eexists. rewrite Hid. split; [done|]. apply Hcreate.
Qed.

(** C1. An ENTERPRISE token holder who asks for a key is always refused
    with the quota message, whatever number of live keys the user has:
    the entry 0 of the table is compared as a number. *)
Theorem enterprise_key_creation_rejected (env : Env) (token_hex : string)
    (req : APIKeyCreateReq.t) (db : DB) (id org_id : Z)
    (username hashed_password : string) (is_admin : bool) (created_at : Z)
    (payload : claims) :
  let user := User.mk id org_id username hashed_password is_admin ENTERPRISE created_at in
  create_api_key env token_hex req (AuthJwt user payload) db
  = (HTTPException 403 "API key quota exceeded for user type ENTERPRISE (quota=0)", db).
Proof.
  intros user.
  pose proof (create_api_key_quota env token_hex req user payload db) as (Hq & Hdb & _).
  change (Py.get API_KEY_QUOTA (value (User.user_type user)) 10) with 0 in Hq, Hdb.
  destruct (create_api_key env token_hex req (AuthJwt user payload) db) as [r d].
  f_equal; [apply Hq | apply Hdb]; apply Z.le_ge, count_nonneg.
Qed.

(** C6. The failing input: an ENTERPRISE user without any key.  The
    count of live keys is 0, and the request is refused with the quota
    message. *)
Theorem enterprise_first_key_refused :
  let user := User.mk 1 1 "root" "bcrypt(pw)" true ENTERPRISE 0 in
  let db := mkDB [Org.mk 1 "acme" 0] [user] [] in
  count (λ a, APIKey.user_id a = User.id user ∧ APIKey.revoked a = false)
        (api_keys db) = 0
  ∧ create_api_key (healthy 0) "00000000000000000000000000000000"
      (APIKeyCreateReq.mk None None None) (AuthJwt user ∅) db
    = (HTTPException 403 "API key quota exceeded for user type ENTERPRISE (quota=0)", db).
Proof. split; reflexivity. Qed.

(** ** Resolving an API key *)

(** With unique hashes, the live key with a hash is the key with that
    hash, if that one is live. *)
Lemma first_live_key (h : string) (rows : list APIKey.t) :
  NoDup (APIKey.key_hash <$> rows) →
  first (λ a, APIKey.key_hash a = h ∧ APIKey.revoked a = false) rows
  = match first (λ a, APIKey.key_hash a = h) rows with
    | Some a => if APIKey.revoked a then None else Some a
    | None => None
    end.
Proof.
  intros Hnd.
  destruct (first (λ a, APIKey.key_hash a = h) rows) as [a|] eqn:Hm.
  - pose proof (first_Some _ _ _ Hm) as (Hin & Hh).
    destruct (APIKey.revoked a) eqn:Hrev.
    + apply first_None. intros x Hx (Hxh & Hxr).
      assert (x = a) as -> by (apply (NoDup_fmap_eq APIKey.key_hash rows); congruence).
      congruence.
    + clear Hin Hnd. unfold first in *. induction rows as [|b rows IH]; [done|].
      rewrite filter_cons in Hm. rewrite filter_cons.
      destruct (decide (APIKey.key_hash b = h)) as [Hb|Hb].
      * simpl in Hm. injection Hm as ->. by rewrite decide_True.
      * rewrite decide_False by (by intros [? _]). by apply IH.
  - apply first_None. intros x Hx (Hxh & _).
    rewrite first_None in Hm. by apply (Hm x).
Qed.

Lemma key_expired_true (t : Z) (a : APIKey.t) :
  key_expired t a = true ↔ ∃ e, APIKey.expires_at a = Some e ∧ e < t.
Proof.
  unfold key_expired. destruct (APIKey.expires_at a) as [e|].
  - rewrite bool_decide_eq_true. split; [by exists e|].
    by intros (e' & [= ->] & ?).
  - split; [done|]. by intros (? & ? & _).
Qed.

(** The key path on a store that answers. *)
Lemma get_current_user_key (t : Z) (k : string) (authorization : option string)
    (db : DB) :
  k ≠ EmptyString →
  get_current_user (healthy t) (Some k) authorization db
  = match first (λ a, APIKey.key_hash a = hash_key_hmac k ∧ APIKey.revoked a = false)
                (api_keys db) with
    | None => HTTPException 401 "Invalid API key"
    | Some api =>
        if key_expired t api then HTTPException 401 "API key expired"
        else match first (λ u, User.id u = APIKey.user_id api) (users db) with
             | None => HTTPException 401 "User not found"
             | Some user => Ok (AuthApiKey user api)
             end
    end.
Proof.
  intros Hk. unfold get_current_user, truthy. rewrite decide_False by done.
  unfold query. simpl.
  destruct (first _ (api_keys db)) as [api|]; [|done]. simpl.
  destruct (key_expired t api); [done|]. by destruct (first _ (users db)).
Qed.

Lemma create_api_key_keys (env : Env) (token_hex : string)
    (req : APIKeyCreateReq.t) (auth : Auth) (db : DB) :
  api_keys (create_api_key env token_hex req auth db).2 = api_keys db
  ∨ ∃ api, api_keys (create_api_key env token_hex req auth db).2 = api_keys db ++ [api]
           ∧ APIKey.key_hash api ∉ APIKey.key_hash <$> api_keys db.
Proof.
  unfold create_api_key.
  case_decide; [by left|]. case_decide; [by left|].
  destruct (key_expires_at env req); [|by left..].
  destruct (first (λ a, APIKey.key_hash a = _) (api_keys db)) eqn:Hfresh; [by left|].
  right. eexists. split; [reflexivity|]. simpl.
  intros Hin. apply list_elem_of_fmap in Hin as (x & Hx & Hxin).
  rewrite first_None in Hfresh. by apply (Hfresh x).
Qed.

Lemma revoke_api_key_keys (key_id : Z) (auth : Auth) (db : DB) :
  api_keys (revoke_api_key key_id auth db).2 = api_keys db
  ∨ ∃ api, api_keys (revoke_api_key key_id auth db).2 = commit_revoked api (api_keys db).
Proof.
  unfold revoke_api_key. case_decide; [by left|].
  destruct (first _ (api_keys db)); [|by left]. right. by eexists.
Qed.

Lemma signup_keys (env : Env) (payload : SignupReq.t) (db : DB) :
  api_keys (signup env payload db).2 = api_keys db.
Proof.
  unfold signup. destruct (first _ (orgs db)); [done|].
  by destruct (first _ (users db)).
Qed.

Lemma serve_keys (env : Env) (r : request) (db : DB) :
  api_keys (serve env r db) = api_keys db
  ∨ (∃ api, api_keys (serve env r db) = api_keys db ++ [api]
            ∧ APIKey.key_hash api ∉ APIKey.key_hash <$> api_keys db)
  ∨ ∃ api, api_keys (serve env r db) = commit_revoked api (api_keys db).
Proof.
  destruct r as [payload|k a token_hex req|k a key_id]; simpl.
  - left. apply signup_keys.
  - unfold post_apikeys. destruct (get_current_user env k a db) as [auth| |];
      [|by left..].
    destruct (create_api_key_keys env token_hex req auth db) as [?|?]; auto.
  - unfold delete_apikeys. destruct (get_current_user env k a db) as [auth| |];
      [|by left..].
    destruct (revoke_api_key_keys key_id auth db) as [?|?]; auto.
Qed.

Lemma commit_revoked_hashes (api : APIKey.t) (rows : list APIKey.t) :
  APIKey.key_hash <$> commit_revoked api rows = APIKey.key_hash <$> rows.
Proof.
  unfold commit_revoked. rewrite <- list_fmap_compose.
  apply list_fmap_ext. intros _ a _. simpl. by case_decide.
Qed.

Lemma serve_unique (env : Env) (r : request) (db : DB) :
  unique_key_hash db → unique_key_hash (serve env r db).
Proof.
  unfold unique_key_hash. intros Hnd.
  destruct (serve_keys env r db) as [->|[(api & -> & Hfresh)|(api & ->)]].
  - done.
  - rewrite fmap_app. apply NoDup_app. split; [done|]. split.
    + intros x Hx Hx'. simpl in Hx'. apply list_elem_of_singleton in Hx'. by subst.
    + simpl. apply NoDup_singleton.
  - by rewrite commit_revoked_hashes.
Qed.

Lemma serve_revoked (h : string) (env : Env) (r : request) (db : DB) :
  has_revoked h db → has_revoked h (serve env r db).
Proof.
  intros (a & Hin & Hh & Hrev). unfold has_revoked.
  destruct (serve_keys env r db) as [->|[(api & -> & _)|(api & ->)]].
  - by exists a.
  - exists a. split; [|done]. apply elem_of_app. by left.
  - unfold commit_revoked. eexists.
    split; [apply list_elem_of_fmap_2, Hin|]. simpl. by case_decide.
Qed.

Lemma serve_all_invariant (h : string) (rs : list (Env * request)) (db : DB) :
  unique_key_hash db → has_revoked h db →
  unique_key_hash (serve_all rs db) ∧ has_revoked h (serve_all rs db).
Proof.
  revert db. induction rs as [|[env r] rs IH]; intros db Hu Hr; [done|].
  simpl. apply IH; [by apply serve_unique | by apply serve_revoked].
Qed.

(** Every database the program builds from the empty one has unique
    hashes. *)
Lemma unique_key_hash_reachable (rs : list (Env * request)) :
  unique_key_hash (serve_all rs empty_db).
Proof.
  assert (∀ db, unique_key_hash db → unique_key_hash (serve_all rs db)) as Hgen.
  { induction rs as [|[env r] rs IH]; intros db Hu; [done|].
    simpl. by apply IH, serve_unique. }
  apply Hgen. unfold unique_key_hash. simpl. apply NoDup_nil_2.
Qed.

Lemma revoked_key_refused (t : Z) (k : string) (authorization : option string)
    (db : DB) :
  k ≠ EmptyString → unique_key_hash db → has_revoked (hash_key_hmac k) db →
  get_current_user (healthy t) (Some k) authorization db
  = HTTPException 401 "Invalid API key".
Proof.
  intros Hk Hu (a & Hin & Hh & Hrev).
  rewrite get_current_user_key by done.
  rewrite first_live_key by done.
  destruct (first (λ a, APIKey.key_hash a = hash_key_hmac k) (api_keys db))
    as [a'|] eqn:Hm; [|done].
  pose proof (first_Some _ _ _ Hm) as (Hin' & Hh').
  assert (a' = a) as ->
    by (apply (NoDup_fmap_eq APIKey.key_hash (api_keys db)); [exact Hu|done|done|congruence]).
  by rewrite Hrev.
Qed.

(** C4. With an API key in the request and a store that answers, the
    resolver answers 401 exactly when no key has the hash of the secret, or
    the key with that hash is revoked, or its expiry is set and before now,
    or no user has the id of its owner; otherwise it returns that user
    together with the key row, which holds the scopes.  Once the key is
    revoked, the answer is 401 after any run of requests that write to the
    database. *)
Theorem api_key_resolution (t : Z) (k : string) (authorization : option string)
    (db : DB) :
  k ≠ EmptyString → unique_key_hash db →
  let r := get_current_user (healthy t) (Some k) authorization db in
  let m := first (λ a, APIKey.key_hash a = hash_key_hmac k) (api_keys db) in
  let owner := λ a, first (λ u, User.id u = APIKey.user_id a) (users db) in
  (Unauthenticated r ↔
     m = None
     ∨ ∃ a, m = Some a
            ∧ (APIKey.revoked a = true
               ∨ (∃ e, APIKey.expires_at a = Some e ∧ e < t)
               ∨ owner a = None))
  ∧ (¬ Unauthenticated r →
     ∃ a u, m = Some a ∧ owner a = Some u ∧ User.id u = APIKey.user_id a
            ∧ r = Ok (AuthApiKey u a))
  ∧ (∀ a, m = Some a → APIKey.revoked a = true →
     ∀ rs t' authorization',
       Unauthenticated
         (get_current_user (healthy t') (Some k) authorization' (serve_all rs db))).
Proof.
  intros Hk Hu r m owner.
  assert (∀ a, m = Some a → APIKey.revoked a = true →
     ∀ rs t' authorization',
       Unauthenticated
         (get_current_user (healthy t') (Some k) authorization' (serve_all rs db)))
    as Hperm.
  { intros a Hm Hrev rs t' authorization'.
    apply first_Some in Hm as (Hin & Hh).
    destruct (serve_all_invariant (hash_key_hmac k) rs db Hu) as (Hu' & Hr').
    { by exists a. }
    by rewrite revoked_key_refused. }
  split; [|split]; [| |exact Hperm].
  all: subst r; rewrite get_current_user_key by done;
    rewrite first_live_key by exact Hu; fold m.
  - destruct m as [a|] eqn:Hm; [|split; [by left|done]].
    destruct (APIKey.revoked a) eqn:Hrev.
    { split; [intros _; right; exists a; eauto|done]. }
    destruct (key_expired t a) eqn:Hexp.
    { split; [|done]. intros _. right. exists a. split; [done|].
      right. left. by apply key_expired_true. }
    fold (owner a). destruct (owner a) as [u|] eqn:Ho.
    { split; [discriminate|].
      intros [?|(a' & [= <-] & [?|[Hex|?]])]; try congruence.
      apply key_expired_true in Hex. congruence. }
    split; [intros _; right; exists a; eauto|done].
  - destruct m as [a|] eqn:Hm; [|intros Hn; by destruct Hn].
    destruct (APIKey.revoked a) eqn:Hrev; [intros Hn; by destruct Hn|].
    destruct (key_expired t a) eqn:Hexp; [intros Hn; by destruct Hn|].
    fold (owner a). destruct (owner a) as [u|] eqn:Ho; [|intros Hn; by destruct Hn].
    intros _. exists a, u. repeat split; try done.
    by apply first_Some in Ho as (_ & ?).
Qed.

(** ** Resolving a session token *)

Lemma truthy_bearer (a scheme sep tok : string) :
  Py.partition " " a = (scheme, sep, tok) → Py.lower scheme = "bearer" →
  truthy (Some a) = Some a.
Proof.
  destruct a; simpl; [|done]. by intros [= <- _ _] ?.
Qed.

(** The token path up to the decoded payload. *)
Lemma get_current_user_bearer (env : Env) (x_api_key : option string)
    (a scheme sep tok : string) (db : DB) :
  truthy x_api_key = None →
  Py.partition " " a = (scheme, sep, tok) → Py.lower scheme = "bearer" →
  (∀ e, decode_access_token env tok = inl e →
        get_current_user env x_api_key (Some a) db = HTTPException 401 "Invalid token")
  ∧ (∀ payload sub org uid oid,
        decode_access_token env tok = inr payload →
        payload !! "sub" = Some sub → py_int sub = Some uid →
        payload !! "org" = Some org → py_int org = Some oid →
        get_current_user env x_api_key (Some a) db
        = (user ← query env 0 (first (λ u, User.id u = uid) (users db));
           match user with
           | None => HTTPException 401 "User not found"
           | Some user =>
               if decide (User.org_id user ≠ oid)
               then HTTPException 401 "org mismatch in token"
               else Ok (AuthJwt user payload)
           end)).
Proof.
  intros Hx Hpart Hlow. unfold get_current_user.
  rewrite Hx, (truthy_bearer _ _ _ _ Hpart Hlow), Hpart.
  rewrite decide_False by (by intros ?).
  split.
  - intros e ->. done.
  - intros payload sub org uid oid -> -> -> -> ->. done.
Qed.

Lemma first_reparent (uid new_org : Z) (db : DB) (u : User.t) :
  first (λ u, User.id u = uid) (users (reparent uid new_org db)) = Some u →
  User.org_id u = new_org.
Proof.
  intros Hfirst. apply first_Some in Hfirst as (Hin & Hid).
  unfold reparent in Hin. simpl in Hin.
  apply list_elem_of_fmap in Hin as (u0 & -> & _).
  destruct (decide (User.id u0 = uid)); [done|]. done.
Qed.

Lemma token_signs (env : Env) (username password tok : string) (db : DB) :
  token env username password db = Ok tok →
  ∃ u, first (λ u, User.username u = username) (users db) = Some u
       ∧ tok = jwt_encode (session_claims u (utcnow env)) SECRET_KEY.
Proof.
  unfold token. destruct (first _ (users db)) as [u|]; [|done].
  destruct (negb _); [done|]. intros [= <-]. by exists u.
Qed.

Lemma decode_access_token_claims (env : Env) (tok : string) (c payload : claims) :
  jws_verify tok SECRET_KEY = Some c →
  decode_access_token env tok = inr payload → payload = c.
Proof.
  unfold decode_access_token, jwt_decode. intros ->.
  destruct (negb _); [done|]. destruct (validate_exp _ _); [done|].
  destruct (claims_valid_after_exp c); [|done]. by intros [= <-].
Qed.

(** A token given to a user, shown again after the user was moved to
    another organization, is refused. *)
Lemma token_replay_after_reparent (t0 t1 : Z) (username password tok : string)
    (u : User.t) (new_org : Z) (db : DB) :
  token (healthy t0) username password db = Ok tok →
  first (λ u, User.username u = username) (users db) = Some u →
  jws_verify tok SECRET_KEY = Some (session_claims u t0) →
  int_of_str (Py.str (User.id u)) = Some (User.id u) →
  int_of_str (Py.str (User.org_id u)) = Some (User.org_id u) →
  new_org ≠ User.org_id u →
  Unauthenticated
    (get_current_user (healthy t1) None (Some ("Bearer " +:+ tok))
       (reparent (User.id u) new_org db)).
Proof.
  intros _ _ Hverify Hid Horg Hne.
  destruct (get_current_user_bearer (healthy t1) None ("Bearer " +:+ tok)
              "Bearer" " " tok (reparent (User.id u) new_org db))
    as (Hbad & Hgood); [done..|].
  destruct (decode_access_token (healthy t1) tok) as [e|payload] eqn:Hdec.
  - by rewrite (Hbad e).
  - pose proof (decode_access_token_claims _ _ _ _ Hverify Hdec) as ->.
    rewrite (Hgood _ (JStr (Py.str (User.id u))) (JStr (Py.str (User.org_id u)))
                   (User.id u) (User.org_id u) eq_refl); [|done..].
    unfold query. cbn [db_fails healthy mbind result_bind].
    destruct (first (λ u0, User.id u0 = User.id u)
                (users (reparent (User.id u) new_org db))) as [u'|] eqn:Hu';
      [|done].
    apply first_reparent in Hu'. rewrite decide_True by congruence. done.
Qed.

(** C5. A request that carries no API key and a bearer token that
    verifies against the signing secret, with a user id and an
    organization id in it, is answered 401 when that organization id is not
    the one the user has in the database now: if the token does not decode
    (it is expired, say) it is refused as invalid, and if it decodes it is
    refused for the mismatch.  In particular a token given to a user is
    refused once the user's organization id was changed. *)
Theorem token_org_mismatch (t : Z) (x_api_key : option string)
    (a scheme sep tok : string) (payload : claims) (sub org : jval)
    (uid oid : Z) (db : DB) :
  truthy x_api_key = None →
  Py.partition " " a = (scheme, sep, tok) → Py.lower scheme = "bearer" →
  jws_verify tok SECRET_KEY = Some payload →
  payload !! "sub" = Some sub → py_int sub = Some uid →
  payload !! "org" = Some org → py_int org = Some oid →
  (∀ u, first (λ u, User.id u = uid) (users db) = Some u → User.org_id u ≠ oid) →
  Unauthenticated (get_current_user (healthy t) x_api_key (Some a) db)
  ∧ (∀ u, decode_access_token (healthy t) tok = inr payload →
          first (λ u, User.id u = uid) (users db) = Some u →
          get_current_user (healthy t) x_api_key (Some a) db
          = HTTPException 401 "org mismatch in token")
  ∧ (∀ t0 t1 username password tok0 u0 new_org db0,
       token (healthy t0) username password db0 = Ok tok0 →
       first (λ u, User.username u = username) (users db0) = Some u0 →
       jws_verify tok0 SECRET_KEY = Some (session_claims u0 t0) →
       int_of_str (Py.str (User.id u0)) = Some (User.id u0) →
       int_of_str (Py.str (User.org_id u0)) = Some (User.org_id u0) →
       new_org ≠ User.org_id u0 →
       Unauthenticated
         (get_current_user (healthy t1) None (Some ("Bearer " +:+ tok0))
            (reparent (User.id u0) new_org db0))).
Proof.
  intros Hx Hpart Hlow Hverify Hsub Huid Horg Hoid Hmis.
  destruct (get_current_user_bearer (healthy t) x_api_key a scheme sep tok db
              Hx Hpart Hlow) as (Hbad & Hgood).
  split; [|split].
  - destruct (decode_access_token (healthy t) tok) as [e|p] eqn:Hdec.
    { by rewrite (Hbad e). }
    pose proof (decode_access_token_claims _ _ _ _ Hverify Hdec) as ->.
    rewrite (Hgood _ _ _ _ _ eq_refl Hsub Huid Horg Hoid).
    unfold query. cbn [db_fails healthy mbind result_bind].
    destruct (first (λ u, User.id u = uid) (users db)) as [u|] eqn:Hu; [|done].
    by rewrite decide_True by by apply Hmis.
  - intros u Hdec Hu.
    rewrite (Hgood _ _ _ _ _ Hdec Hsub Huid Horg Hoid).
    unfold query. cbn [db_fails healthy mbind result_bind].
    rewrite Hu. by rewrite decide_True by by apply Hmis.
  - intros. by eapply token_replay_after_reparent.
Qed.

(** ** Expiry of a session token *)

(** C9, as amended.  For a token whose signature and earlier claims
    pass and whose [exp] claim reads as the integer [exp], decoding fails
    with [ExpiredSignatureError] exactly when [exp] is less than the current
    time in whole seconds.  At a current time equal to [exp] the expiry
    check passes, and the token is accepted if its remaining claims are. *)
Theorem token_expiry_boundary (env : Env) (tok : string) (c : claims)
    (v : jval) (exp : Z) :
  jws_verify tok SECRET_KEY = Some c →
  claims_valid_before_exp c (utcnow env `div` SECOND) = true →
  c !! "exp" = Some v → py_int v = Some exp →
  let now_s := utcnow env `div` SECOND in
  (decode_access_token env tok = inl ExpiredSignatureError ↔ exp < now_s)
  ∧ (now_s ≤ exp →
     decode_access_token env tok
     = if claims_valid_after_exp c then inr c else inl JWTClaimsError)
  ∧ (now_s = exp → claims_valid_after_exp c = true →
     decode_access_token env tok = inr c).
Proof.
  intros Hverify Hpre Hexp Hint now_s.
  unfold decode_access_token, jwt_decode, validate_exp.
  rewrite Hverify. fold now_s. fold now_s in Hpre. rewrite Hpre, Hexp, Hint. simpl.
  destruct (decide (exp < now_s)) as [Hlt|Hge].
  - split; [done|]. split; intros; lia.
  - split; [|split].
    + split; [|done]. by destruct (claims_valid_after_exp c).
    + done.
    + by intros _ ->.
Qed.

(** ** Failures of the backends *)

Lemma get_current_user_healthy (env : Env) (x_api_key authorization : option string)
    (db : DB) (auth : Auth) :
  get_current_user env x_api_key authorization db = Ok auth →
  get_current_user (healthy (utcnow env)) x_api_key authorization db = Ok auth.
Proof.
  unfold get_current_user, query, decode_access_token. simpl.
  destruct (truthy x_api_key) as [k|].
  - destruct (db_fails env 0); [done|]. simpl.
    destruct (first _ (api_keys db)) as [api|]; [|done].
    destruct (key_expired _ api); [done|].
    by destruct (db_fails env 1).
  - destruct (truthy authorization) as [a|]; [|done].
    destruct (Py.partition " " a) as [[scheme sep] tok].
    case_decide; [done|].
    destruct (jwt_decode tok SECRET_KEY _) as [e|payload]; [done|].
    destruct (payload !! "sub") as [sub|]; [|done].
    destruct (py_int sub); [|done].
    destruct (payload !! "org") as [org|]; [|done].
    destruct (py_int org); [|done].
    by destruct (db_fails env 0).
Qed.

Lemma limiter_incr_fault (env : Env) (user_id : Z) (user_type : string)
    (rcli : Redis.store) :
  incr_fault env ≠ NoFault →
  (rate_limit_check_by_user env user_id user_type rcli).1 = (true, None).
Proof.
  intros Hf. unfold rate_limit_check_by_user, rcli_incr.
  case_decide; [done|]. case_decide; [done|].
  by destruct (incr_fault env).
Qed.

Lemma limiter_expire_fault (env : Env) (user_id : Z) (user_type : string)
    (rcli : Redis.store) :
  expire_fault env ≠ NoFault →
  Redis.get (utcnow env) (rl_key user_id (int_seconds (utcnow env))) rcli = None →
  (rate_limit_check_by_user env user_id user_type rcli).1 = (true, None).
Proof.
  intros Hf Hnone. unfold rate_limit_check_by_user, rcli_incr, rcli_expire.
  case_decide; [done|]. case_decide; [done|].
  unfold Redis.incr. rewrite Hnone.
  destruct (incr_fault env); [|done..]. simpl.
  by destruct (expire_fault env).
Qed.

(** C8, as amended.  The limiter fails open: when its INCR raises, or
    the EXPIRE it sends for the first call of a window raises, the answer
    is [(True, None)].  The resolver never does: a token that does not
    decode is answered 401; a query that raises is caught by nobody, the
    request ends with that exception and not with 401; a caller the
    resolver returns under failures is the caller it returns with none; and
    a request the resolver did not pass never reaches the limiter. *)
Theorem limiter_fails_open_resolver_closed (env : Env) (user_id : Z)
    (user_type : string) (rcli : Redis.store)
    (x_api_key authorization : option string) (payload : string) (db : DB) :
  (incr_fault env ≠ NoFault →
   (rate_limit_check_by_user env user_id user_type rcli).1 = (true, None))
  ∧ (expire_fault env ≠ NoFault →
     Redis.get (utcnow env) (rl_key user_id (int_seconds (utcnow env))) rcli = None →
     (rate_limit_check_by_user env user_id user_type rcli).1 = (true, None))
  ∧ (∀ a scheme sep tok e,
       truthy x_api_key = None →
       Py.partition " " a = (scheme, sep, tok) → Py.lower scheme = "bearer" →
       decode_access_token env tok = inl e →
       get_current_user env x_api_key (Some a) db = HTTPException 401 "Invalid token")
  ∧ (∀ k, truthy x_api_key = Some k → db_fails env 0 = true →
       get_current_user env x_api_key authorization db = Uncaught OperationalError)
  ∧ (∀ a scheme sep tok claims sub org uid oid,
       truthy x_api_key = None →
       Py.partition " " a = (scheme, sep, tok) → Py.lower scheme = "bearer" →
       decode_access_token env tok = inr claims →
       claims !! "sub" = Some sub → py_int sub = Some uid →
       claims !! "org" = Some org → py_int org = Some oid →
       db_fails env 0 = true →
       get_current_user env x_api_key (Some a) db = Uncaught OperationalError)
  ∧ (∀ auth, get_current_user env x_api_key authorization db = Ok auth →
       get_current_user (healthy (utcnow env)) x_api_key authorization db = Ok auth)
  ∧ (is_ok (get_current_user env x_api_key authorization db) = false →
     let out := post_generate env x_api_key authorization payload db rcli in
     is_ok out.1 = false ∧ out.2 = rcli).
Proof.
  split; [apply limiter_incr_fault|].
  split; [apply limiter_expire_fault|].
  split; [|split; [|split; [|split]]].
  - intros a scheme sep tok e Hx Hpart Hlow Hdec.
    by eapply (get_current_user_bearer env x_api_key a scheme sep tok db).
  - intros k Hk Hf. unfold get_current_user, query. by rewrite Hk, Hf.
  - intros a scheme sep tok c sub org uid oid Hx Hpart Hlow Hdec Hs Hu Ho Hoi Hf.
    destruct (get_current_user_bearer env x_api_key a scheme sep tok db
                Hx Hpart Hlow) as (_ & Hgood).
    rewrite (Hgood _ _ _ _ _ Hdec Hs Hu Ho Hoi). unfold query. by rewrite Hf.
  - apply get_current_user_healthy.
  - unfold post_generate.
    by destruct (get_current_user env x_api_key authorization db).
Qed.

(** ** The order of the gate *)


End Properties.

(** ** The program on the demo platform *)

(** A revoked key of [alice] stays refused after a later request. *)
Lemma api_key_resolution_witness :
  Unauthenticated
    (@get_current_user Demo.P (healthy 9) (Some "sk-a1") None
       (@serve_all Demo.P [(healthy 7, RevokeKey None (Some "Bearer tok") 1)]
          (Demo.db1 "tts" true))).
Proof.
  refine (proj2 (proj2 (@api_key_resolution Demo.P 5 "sk-a1" None
                          (Demo.db1 "tts" true) _ _))
            (Demo.alice_key "tts" true) _ _ _ _ _).
  - discriminate.
  - vm_compute. apply NoDup_singleton.
  - reflexivity.
  - reflexivity.
Defined.

(** The token of [alice] for organization 1, shown after she was moved
    to organization 2. *)
Lemma token_org_mismatch_witness :
  @get_current_user Demo.P (healthy (10 * SECOND)) None (Some "Bearer tok")
    (reparent 1 2 (Demo.db1 "tts" false))
  = HTTPException 401 "org mismatch in token".
Proof.
  refine (proj1 (proj2 (@token_org_mismatch Demo.P (10 * SECOND) None
                          "Bearer tok" "Bearer" " " "tok" Demo.alice_claims
                          (JStr "1") (JStr "1") 1 1
                          (reparent 1 2 (Demo.db1 "tts" false))
                          _ _ _ _ _ _ _ _ _))
            (User.mk 1 2 "alice" "bcrypt(pw)" false NORMAL 0) _ _);
    try reflexivity.
  vm_compute. intros u [= <-]. discriminate.
Defined.

(** The token of [alice] expires at second 3600 and is decoded at second
    3600. *)
Lemma token_expiry_boundary_witness :
  @decode_access_token Demo.P (healthy (3600 * SECOND)) "tok" = inr Demo.alice_claims.
Proof.
  refine (proj2 (proj2 (@token_expiry_boundary Demo.P (healthy (3600 * SECOND))
                          "tok" Demo.alice_claims (JInt 3600) 3600 _ _ _ _)) _ _);
    reflexivity.
Defined.

(** Against C9 as stated: the token whose [exp] is 3600 is accepted at
    second 3600, and up to the end of that second. *)
Lemma token_at_expiry_accepted :
  Demo.alice_claims !! "exp" = Some (JInt 3600)
  ∧ (utcnow (healthy (3600 * SECOND)) `div` SECOND) = 3600
  ∧ @decode_access_token Demo.P (healthy (3600 * SECOND)) "tok"
    = inr Demo.alice_claims
  ∧ @decode_access_token Demo.P (healthy (3600 * SECOND + 999999)) "tok"
    = inr Demo.alice_claims.
Proof. repeat split; vm_compute; reflexivity. Qed.

(** Against C8 as stated: with the database down, the resolver does not
    answer 401; the exception of the query leaves the handler. *)
Lemma store_failure_not_unauthenticated :
  let env := mkEnv 0 (λ _, true) NoFault NoFault in
  let who := @get_current_user Demo.P env (Some "sk-a1") None (Demo.db1 "tts" false) in
  who = Uncaught OperationalError ∧ ¬ Unauthenticated who.
Proof. split; [reflexivity|]. vm_compute. discriminate. Qed.



(** The resolver with the database down, on the key path. *)
Lemma limiter_fails_open_resolver_closed_witness :
  @get_current_user Demo.P (mkEnv 0 (λ _, true) Dropped NoFault) (Some "sk-a1") None
    (Demo.db1 "tts" false)
  = Uncaught OperationalError
  ∧ (rate_limit_check_by_user (mkEnv 0 (λ _, true) Dropped NoFault) 1 "NORMAL" ∅).1
    = (true, None).
Proof.
  pose (env := mkEnv 0 (λ _, true) Dropped NoFault).
  split.
  - refine (proj1 (proj2 (proj2 (proj2
              (@limiter_fails_open_resolver_closed Demo.P env 1 "NORMAL" ∅
                 (Some "sk-a1") None "{}" (Demo.db1 "tts" false)))))
              "sk-a1" _ _); reflexivity.
  - refine (proj1 (@limiter_fails_open_resolver_closed Demo.P env 1 "NORMAL" ∅
                     (Some "sk-a1") None "{}" (Demo.db1 "tts" false)) _).
    discriminate.
Defined.

(** [alice] revokes her key twice. *)
Lemma revoke_idempotent_witness :
  let auth := AuthJwt Demo.alice Demo.alice_claims in
  let db := Demo.db1 "tts" false in
  revoke_api_key 1 auth (revoke_api_key 1 auth db).2 = revoke_api_key 1 auth db
  ∧ (revoke_api_key 1 auth db).1 = Ok ("revoked", 1)
  ∧ Demo.alice_key "tts" true ∈ api_keys (revoke_api_key 1 auth db).2
  ∧ revoke_api_key 1 auth (Demo.db1 "tts" true)
    = (Ok ("revoked", 1), Demo.db1 "tts" true).
Proof.
  intros auth db. split; [|split; [|split]].
  - exact (proj1 (revoke_idempotent 1 auth db)).
  - refine (proj1 (proj2 (revoke_idempotent 1 auth db)
                     (Demo.alice_key "tts" false) _ _ _ _)); try reflexivity.
    apply list_elem_of_singleton. reflexivity.
  - refine (proj1 (proj2 (proj2 (revoke_idempotent 1 auth db)
                            (Demo.alice_key "tts" false) _ _ _ _))); try reflexivity.
    apply list_elem_of_singleton. reflexivity.
  - refine (proj2 (proj2 (proj2 (proj2 (proj2 (proj2
              (proj2 (revoke_idempotent 1 auth (Demo.db1 "tts" true))
                 (Demo.alice_key "tts" true) _ _ _ _)))))) _ _); try reflexivity.
    + apply list_elem_of_singleton. reflexivity.
    + vm_compute. apply NoDup_singleton.
Defined.

(** * More of the program *)

(** ** Primary keys *)

Lemma next_id_above (ids : list Z) (x : Z) : x ∈ ids → x < next_id ids.
Proof.
  unfold next_id. induction ids as [|y ids IH]; intros Hx.
  - by apply elem_of_nil in Hx.
  - simpl. apply elem_of_cons in Hx as [->|Hx]; [lia|]. specialize (IH Hx). lia.
Qed.

Lemma next_id_fresh (ids : list Z) : next_id ids ∉ ids.
Proof. intros Hin. apply next_id_above in Hin. lia. Qed.

Lemma NoDup_snoc_fmap {A B} (f : A → B) (l : list A) (x : A) :
  NoDup (f <$> l) → f x ∉ f <$> l → NoDup (f <$> (l ++ [x])).
Proof.
  intros Hnd Hx. rewrite fmap_app. apply NoDup_app. split; [done|]. split.
  - intros y Hy Hy'. simpl in Hy'. apply list_elem_of_singleton in Hy'. by subst.
  - simpl. apply NoDup_singleton.
Qed.

Lemma first_None_fresh {A B} `{EqDecision B} (f : A → B) (b : B) (l : list A) :
  first (λ x, f x = b) l = None → b ∉ f <$> l.
Proof.
  intros Hnone Hin. apply list_elem_of_fmap in Hin as (x & -> & Hx).
  rewrite first_None in Hnone. by apply (Hnone x).
Qed.

Lemma first_unique {A B} `{EqDecision B} (f : A → B) (l : list A) (x : A) :
  NoDup (f <$> l) → x ∈ l → first (λ y, f y = f x) l = Some x.
Proof.
  intros Hnd Hx.
  destruct (first (λ y, f y = f x) l) as [y|] eqn:Hfirst.
  - apply first_Some in Hfirst as (Hy & Hf). f_equal.
    by apply (NoDup_fmap_eq f l).
  - rewrite first_None in Hfirst. by destruct (Hfirst x Hx).
Qed.

Lemma first_app_fresh {A} (P : A → Prop) `{∀ x, Decision (P x)} (l : list A) (x : A) :
  first P l = None → P x → first P (l ++ [x]) = Some x.
Proof.
  unfold first. intros Hnone Hx. rewrite filter_app.
  destruct (filter P l) as [|y l'] eqn:Hf; [|done].
  simpl. rewrite filter_cons. by rewrite decide_True.
Qed.

Lemma first_app_old {A} (P : A → Prop) `{∀ x, Decision (P x)} (l : list A) (x y : A) :
  first P l = Some y → first P (l ++ [x]) = Some y.
Proof.
  unfold first. intros Hsome. rewrite filter_app.
  by destruct (filter P l) as [|z l'].
Qed.

(** ** The tables stay consistent *)

Section Tables.
Context `{Platform}.

Lemma quota_nonneg (t : UserTypeEnum) : 0 ≤ Py.get API_KEY_QUOTA (value t) 10.
Proof. destruct t; vm_compute; discriminate. Qed.

Lemma empty_db_consistent : consistent empty_db.
Proof.
  unfold consistent, unique_ids, unique_names, unique_key_hash, references_ok,
    within_quota. simpl.
  repeat split; try apply NoDup_nil_2; intros x Hx; by apply elem_of_nil in Hx.
Qed.

Lemma add_org_consistent (db : DB) (o : Org.t) :
  consistent db →
  Org.id o ∉ Org.id <$> orgs db → Org.name o ∉ Org.name <$> orgs db →
  consistent (mkDB (orgs db ++ [o]) (users db) (api_keys db)).
Proof.
  intros ((Hio & Hiu & Hik) & (Hno & Hnu) & Hh & (Hru & Hrk) & Hq) Hid Hname.
  unfold consistent, unique_ids, unique_names, unique_key_hash, references_ok,
    within_quota, live_keys. simpl.
  repeat split; try done; try by apply NoDup_snoc_fmap.
  intros u Hu. destruct (Hru u Hu) as (o' & Ho' & Heq).
  exists o'. split; [|done]. apply elem_of_app. by left.
Qed.

Lemma no_keys_of_fresh_user (db : DB) (uid : Z) :
  references_ok db → uid ∉ User.id <$> users db → live_keys uid db = 0.
Proof.
  intros (_ & Hrk) Hfresh. unfold live_keys, count.
  assert (first (λ a, APIKey.user_id a = uid ∧ APIKey.revoked a = false)
                (api_keys db) = None) as Hnone.
  { apply first_None. intros a Ha (Huid & _).
    destruct (Hrk a Ha) as (u & Hu & Hid & _). apply Hfresh.
    rewrite <- Huid, <- Hid. by apply list_elem_of_fmap_2. }
  unfold first in Hnone. apply head_None in Hnone. by rewrite Hnone.
Qed.

Lemma add_user_consistent (db : DB) (u : User.t) :
  consistent db →
  User.id u ∉ User.id <$> users db →
  User.username u ∉ User.username <$> users db →
  (∃ o, o ∈ orgs db ∧ Org.id o = User.org_id u) →
  consistent (mkDB (orgs db) (users db ++ [u]) (api_keys db)).
Proof.
  intros ((Hio & Hiu & Hik) & (Hno & Hnu) & Hh & (Hru & Hrk) & Hq) Hid Hname Horg.
  pose proof (no_keys_of_fresh_user db (User.id u) (conj Hru Hrk) Hid) as Hzero.
  unfold consistent, unique_ids, unique_names, unique_key_hash, references_ok,
    within_quota in *. unfold live_keys in *. simpl.
  repeat split; try done; try by apply NoDup_snoc_fmap.
  - intros u' Hu'. apply elem_of_app in Hu' as [Hu'|Hu']; [by apply Hru|].
    apply list_elem_of_singleton in Hu'. by subst.
  - intros a Ha. destruct (Hrk a Ha) as (u' & Hu' & Heq).
    exists u'. split; [|done]. apply elem_of_app. by left.
  - intros u' Hu'. apply elem_of_app in Hu' as [Hu'|Hu']; [by apply Hq|].
    apply list_elem_of_singleton in Hu'. subst u'. rewrite Hzero.
    apply quota_nonneg.
Qed.

Lemma live_keys_add (db : DB) (a : APIKey.t) (uid : Z) :
  live_keys uid (mkDB (orgs db) (users db) (api_keys db ++ [a]))
  = live_keys uid db
    + (if decide (APIKey.user_id a = uid ∧ APIKey.revoked a = false) then 1 else 0).
Proof.
  unfold live_keys, count. simpl. rewrite filter_app, length_app, filter_cons.
  case_decide; simpl; lia.
Qed.

Lemma add_key_consistent (db : DB) (a : APIKey.t) (u : User.t) :
  consistent db →
  APIKey.id a ∉ APIKey.id <$> api_keys db →
  APIKey.key_hash a ∉ APIKey.key_hash <$> api_keys db →
  u ∈ users db → User.id u = APIKey.user_id a → User.org_id u = APIKey.org_id a →
  live_keys (User.id u) db < Py.get API_KEY_QUOTA (value (User.user_type u)) 10 →
  consistent (mkDB (orgs db) (users db) (api_keys db ++ [a])).
Proof.
  intros ((Hio & Hiu & Hik) & (Hno & Hnu) & Hh & (Hru & Hrk) & Hq)
    Hid Hhash Hu Huid Horg Hroom.
  split; [|split; [|split; [|split]]].
  - repeat split; try done. by apply NoDup_snoc_fmap.
  - done.
  - unfold unique_key_hash. simpl. by apply NoDup_snoc_fmap.
  - split; [done|]. simpl. intros a' Ha'.
    apply elem_of_app in Ha' as [Ha'|Ha']; [by apply Hrk|].
    apply list_elem_of_singleton in Ha'. subst a'. by exists u.
  - intros u' Hu'. rewrite live_keys_add. simpl. specialize (Hq u' Hu').
    case_decide as Hown; [|lia]. destruct Hown as (Hown & _).
    assert (u' = u) as ->
      by (apply (NoDup_fmap_eq User.id (users db)); [done..|congruence]).
    lia.
Qed.

Lemma commit_revoked_ids (api : APIKey.t) (rows : list APIKey.t) :
  APIKey.id <$> commit_revoked api rows = APIKey.id <$> rows.
Proof.
  unfold commit_revoked. rewrite <- list_fmap_compose.
  apply list_fmap_ext. intros _ a _. simpl. by case_decide.
Qed.

Lemma count_commit_revoked_le (api : APIKey.t) (uid : Z) (rows : list APIKey.t) :
  count (λ a, APIKey.user_id a = uid ∧ APIKey.revoked a = false) (commit_revoked api rows)
  ≤ count (λ a, APIKey.user_id a = uid ∧ APIKey.revoked a = false) rows.
Proof.
  unfold count, commit_revoked. induction rows as [|b rows IH]; [done|].
  rewrite fmap_cons, !filter_cons.
  destruct (decide (APIKey.id b = APIKey.id api)); simpl.
  - rewrite decide_False by (by intros [_ ?]). case_decide; simpl; lia.
  - case_decide; simpl; lia.
Qed.

Lemma revoke_consistent (db : DB) (api : APIKey.t) :
  consistent db →
  consistent (mkDB (orgs db) (users db) (commit_revoked api (api_keys db))).
Proof.
  intros ((Hio & Hiu & Hik) & (Hno & Hnu) & Hh & (Hru & Hrk) & Hq).
  split; [|split; [|split; [|split]]].
  - repeat split; try done. simpl. by rewrite commit_revoked_ids.
  - done.
  - unfold unique_key_hash. simpl. by rewrite commit_revoked_hashes.
  - split; [done|]. simpl. intros a Ha. unfold commit_revoked in Ha.
    apply list_elem_of_fmap in Ha as (a0 & -> & Ha0).
    destruct (Hrk a0 Ha0) as (u & Hu & Hid & Horg). exists u.
    by destruct (decide (APIKey.id a0 = APIKey.id api)).
  - intros u Hu. specialize (Hq u Hu). unfold live_keys in *. simpl.
    pose proof (count_commit_revoked_le api (User.id u) (api_keys db)). lia.
Qed.

Lemma get_current_user_user (env : Env) (x_api_key authorization : option string)
    (db : DB) (auth : Auth) :
  get_current_user env x_api_key authorization db = Ok auth →
  auth_user auth ∈ users db.
Proof.
  unfold get_current_user, query.
  destruct (truthy x_api_key) as [k|].
  - destruct (db_fails env 0); [done|]. simpl.
    destruct (first _ (api_keys db)) as [api|]; [|done].
    destruct (key_expired _ api); [done|].
    destruct (db_fails env 1); [done|]. simpl.
    destruct (first _ (users db)) as [u|] eqn:Hu; [|done].
    intros [= <-]. by apply first_Some in Hu as (? & _).
  - destruct (truthy authorization) as [a|]; [|done].
    destruct (Py.partition " " a) as [[scheme sep] tok].
    case_decide; [done|].
    destruct (decode_access_token env tok) as [e|payload]; [done|].
    destruct (payload !! "sub") as [sub|]; [|done].
    destruct (py_int sub); [|done].
    destruct (payload !! "org") as [org|]; [|done].
    destruct (py_int org); [|done].
    destruct (db_fails env 0); [done|]. simpl.
    destruct (first _ (users db)) as [u|] eqn:Hu; [|done].
    case_decide; [done|]. intros [= <-]. by apply first_Some in Hu as (? & _).
Qed.

Lemma signup_consistent (env : Env) (payload : SignupReq.t) (db : DB) :
  consistent db → consistent (signup env payload db).2.
Proof.
  intros Hc. unfold signup.
  destruct (first _ (orgs db)) eqn:Horg; [done|].
  apply first_None_fresh in Horg.
  set (org := Org.mk _ _ _).
  assert (consistent (mkDB (orgs db ++ [org]) (users db) (api_keys db))) as Hc1.
  { apply add_org_consistent; [done| |done]. apply next_id_fresh. }
  destruct (first _ (users db)) eqn:Huser; [done|].
  apply first_None_fresh in Huser. simpl.
  apply (add_user_consistent (mkDB (orgs db ++ [org]) (users db) (api_keys db)));
    [done| |done|].
  - apply next_id_fresh.
  - exists org. split; [|done]. simpl. apply elem_of_app. right.
    by apply list_elem_of_singleton.
Qed.

Lemma create_api_key_consistent (env : Env) (token_hex : string)
    (req : APIKeyCreateReq.t) (auth : Auth) (db : DB) :
  consistent db → auth_user auth ∈ users db →
  consistent (create_api_key env token_hex req auth db).2.
Proof.
  intros Hc Hu. unfold create_api_key.
  case_decide; [done|]. case_decide as Hroom; [done|].
  destruct (key_expires_at env req); [|done..].
  destruct (first (λ a, APIKey.key_hash a = _) (api_keys db)) eqn:Hfresh; [done|].
  apply first_None_fresh in Hfresh. simpl.
  apply (add_key_consistent db _ (auth_user auth)); try done.
  - apply next_id_fresh.
  - unfold live_keys. lia.
Qed.

Lemma serve_consistent (env : Env) (r : request) (db : DB) :
  consistent db → consistent (serve env r db).
Proof.
  intros Hc. destruct r as [payload|k a token_hex req|k a key_id]; simpl.
  - by apply signup_consistent.
  - unfold post_apikeys.
    destruct (get_current_user env k a db) as [auth| |] eqn:Hauth; [|done..].
    apply create_api_key_consistent; [done|]. by eapply get_current_user_user.
  - unfold delete_apikeys.
    destruct (get_current_user env k a db) as [auth| |]; [|done..].
    unfold revoke_api_key. case_decide; [done|].
    destruct (first _ (api_keys db)); [|done]. by apply revoke_consistent.
Qed.

Lemma startup_consistent (env : Env) (db : DB) :
  consistent db → consistent (startup env db).
Proof.
  intros Hc. unfold startup.
  destruct (first _ (orgs db)) as [org|] eqn:Horg.
  - destruct (first _ (users db)) eqn:Huser; [done|].
    apply first_None_fresh in Huser. apply first_Some in Horg as (Horg & _).
    apply add_user_consistent; [done| |done|by exists org]. apply next_id_fresh.
  - apply first_None_fresh in Horg.
    set (org := Org.mk _ _ _).
    assert (consistent (mkDB (orgs db ++ [org]) (users db) (api_keys db))) as Hc1.
    { apply add_org_consistent; [done| |done]. apply next_id_fresh. }
    simpl. destruct (first _ (users db)) eqn:Huser; [done|].
    apply first_None_fresh in Huser.
    apply (add_user_consistent (mkDB (orgs db ++ [org]) (users db) (api_keys db)));
      [done| |done|].
    + apply next_id_fresh.
    + exists org. split; [|done]. simpl. apply elem_of_app. right.
      by apply list_elem_of_singleton.
Qed.

Lemma handle_all_consistent (evs : list (Env * event)) (db : DB) :
  consistent db → consistent (handle_all evs db).
Proof.
  revert db. induction evs as [|[env ev] evs IH]; intros db Hc; [done|].
  simpl. apply IH. destruct ev; [by apply startup_consistent|by apply serve_consistent].
Qed.

(** X1. Whatever starts of the process and requests follow, the tables
    keep their primary keys unique, the names of organizations and users
    unique, the key hashes unique, and their references intact: every user
    has its organization, every key has its user and is in that user's
    organization. *)
Theorem tables_stay_consistent (evs : list (Env * event)) (db : DB) :
  consistent db →
  let db' := handle_all evs db in
  unique_ids db' ∧ unique_names db' ∧ unique_key_hash db' ∧ references_ok db'.
Proof.
  intros Hc db'. destruct (handle_all_consistent evs db Hc) as (? & ? & ? & ? & _).
  done.
Qed.

Lemma create_api_key_phases (env : Env) (token_hex : string)
    (req : APIKeyCreateReq.t) (auth : Auth) (db : DB) :
  create_api_key env token_hex req auth db
  = match create_api_key_check auth db with
    | Ok _ => create_api_key_insert env token_hex req auth db
    | HTTPException c d => (HTTPException c d, db)
    | Uncaught e => (Uncaught e, db)
    end.
Proof.
  unfold create_api_key, create_api_key_check, create_api_key_insert.
  case_decide; [done|]. by case_decide.
Qed.

Lemma create_api_key_check_room (user : User.t) (payload : claims) (db : DB) :
  live_keys (User.id user) db < Py.get API_KEY_QUOTA (value (User.user_type user)) 10 →
  create_api_key_check (AuthJwt user payload) db = Ok ().
Proof.
  intros Hroom. unfold create_api_key_check, live_keys in *.
  rewrite decide_False by (by intros ?). cbn [auth_user].
  by rewrite decide_False by lia.
Qed.

Lemma create_api_key_insert_fresh (env : Env) (token_hex : string)
    (req : APIKeyCreateReq.t) (auth : Auth) (db : DB) :
  hash_key_hmac (gen_api_key "sk" token_hex) ∉ APIKey.key_hash <$> api_keys db →
  is_ok (key_expires_at env req) = true →
  ∃ out api,
    create_api_key_insert env token_hex req auth db
    = (Ok out, mkDB (orgs db) (users db) (api_keys db ++ [api]))
    ∧ APIKey.key_hash api = hash_key_hmac (gen_api_key "sk" token_hex)
    ∧ APIKey.user_id api = User.id (auth_user auth)
    ∧ APIKey.revoked api = false.
Proof.
  intros Hfresh Hdate. unfold create_api_key_insert.
  destruct (key_expires_at env req); [|done..].
  destruct (first (λ a, APIKey.key_hash a = _) (api_keys db)) as [a0|] eqn:Hfirst.
  - exfalso. apply first_Some in Hfirst as (Hin & Hh). apply Hfresh.
    rewrite <- Hh. by apply list_elem_of_fmap_2.
  - by eexists _, _.
Qed.

(** X2. The quota check of [create_api_key] holds back requests that
    are served one after the other, and not requests that overlap.  The
    handler counts the live keys and inserts the new row in separate
    statements, without a lock: of two requests of a user with room for one
    more key, the second is refused with the quota message when it is
    served after the first, but when both count before either inserts, both
    succeed and the user has one live key more than the quota. *)
Theorem overlapping_creations_pass_quota (env1 env2 : Env)
    (token_hex1 token_hex2 : string) (req1 req2 : APIKeyCreateReq.t)
    (user : User.t) (payload1 payload2 : claims) (db : DB) :
  let quota := Py.get API_KEY_QUOTA (value (User.user_type user)) 10 in
  let auth1 := AuthJwt user payload1 in
  let auth2 := AuthJwt user payload2 in
  let h1 := hash_key_hmac (gen_api_key "sk" token_hex1) in
  let h2 := hash_key_hmac (gen_api_key "sk" token_hex2) in
  live_keys (User.id user) db = quota - 1 →
  h1 ∉ APIKey.key_hash <$> api_keys db → h2 ∉ APIKey.key_hash <$> api_keys db →
  h1 ≠ h2 →
  is_ok (key_expires_at env1 req1) = true → is_ok (key_expires_at env2 req2) = true →
  let one := create_api_key env1 token_hex1 req1 auth1 db in
  let two := create_api_key env2 token_hex2 req2 auth2 one.2 in
  let both := create_api_key_overlapping env1 token_hex1 req1 auth1
                env2 token_hex2 req2 auth2 db in
  (is_ok one.1 = true
   ∧ two = (HTTPException 403 (quota_detail (value (User.user_type user)) quota), one.2)
   ∧ live_keys (User.id user) two.2 = quota)
  ∧ (is_ok both.1.1 = true ∧ is_ok both.1.2 = true
     ∧ live_keys (User.id user) both.2 = quota + 1).
Proof.
  intros quota auth1 auth2 h1 h2 Hlive Hh1 Hh2 Hne Hd1 Hd2 one two both.
  assert (create_api_key_check auth1 db = Ok ()) as Hc1
    by (apply create_api_key_check_room; fold quota; lia).
  assert (create_api_key_check auth2 db = Ok ()) as Hc2
    by (apply create_api_key_check_room; fold quota; lia).
  destruct (create_api_key_insert_fresh env1 token_hex1 req1 auth1 db Hh1 Hd1)
    as (out1 & api1 & Hins1 & Hkh1 & Hu1 & Hr1).
  set (db1 := mkDB (orgs db) (users db) (api_keys db ++ [api1])) in *.
  assert (live_keys (User.id user) db1 = quota) as Hlive1.
  { unfold db1. rewrite live_keys_add, Hu1, Hr1. cbn [auth_user auth1].
    rewrite decide_True by done. lia. }
  assert (one = (Ok out1, db1)) as Hone.
  { unfold one. by rewrite create_api_key_phases, Hc1. }
  split.
  - rewrite Hone. split; [done|].
    assert (two = (HTTPException 403
                     (quota_detail (value (User.user_type user)) quota), db1)) as ->.
    { unfold two. rewrite Hone. cbn [snd].
      rewrite create_api_key_phases. unfold create_api_key_check.
      rewrite decide_False by (by intros ?). cbn [auth_user auth2].
      fold (live_keys (User.id user) db1). rewrite Hlive1. fold quota.
      by rewrite decide_True by lia. }
    done.
  - destruct (create_api_key_insert_fresh env2 token_hex2 req2 auth2 db1)
      as (out2 & api2 & Hins2 & Hkh2 & Hu2 & Hr2); [|done|].
    { unfold db1. cbn [api_keys]. rewrite fmap_app. intros Hin.
      apply elem_of_app in Hin as [Hin|Hin]; [done|].
      apply list_elem_of_singleton in Hin. fold h1 in Hkh1. fold h2 in Hin.
      congruence. }
    assert (both = (Ok out1, Ok out2,
                    mkDB (orgs db1) (users db1) (api_keys db1 ++ [api2]))) as ->.
    { unfold both, create_api_key_overlapping. rewrite Hc1, Hc2, Hins1.
      cbn [fst snd]. by rewrite Hins2. }
    cbn [fst snd]. split; [done|]. split; [done|].
    rewrite live_keys_add, Hu2, Hr2, Hlive1. cbn [auth_user auth2].
    by rewrite decide_True by done.
Qed.

(** X3. In a consistent database the key path of the resolver, with a
    store that answers, never ends in "User not found", and the user it
    returns is the owner of the key and in the organization of the key. *)
Theorem api_key_owner_found (t : Z) (k : string) (authorization : option string)
    (db : DB) :
  consistent db → k ≠ EmptyString →
  let who := get_current_user (healthy t) (Some k) authorization db in
  who ≠ HTTPException 401 "User not found"
  ∧ ∀ u a, who = Ok (AuthApiKey u a) →
           u ∈ users db ∧ a ∈ api_keys db
           ∧ User.id u = APIKey.user_id a ∧ User.org_id u = APIKey.org_id a.
Proof.
  intros ((_ & Hiu & _) & _ & _ & (_ & Hrk) & _) Hk who. subst who.
  rewrite get_current_user_key by done.
  destruct (first _ (api_keys db)) as [api|] eqn:Hapi; [|done].
  apply first_Some in Hapi as (Hin & _).
  destruct (key_expired t api); [done|].
  destruct (Hrk api Hin) as (u0 & Hu0 & Hid0 & Horg0).
  destruct (first _ (users db)) as [u|] eqn:Hu.
  - split; [done|]. intros u' a' [= <- <-].
    apply first_Some in Hu as (Hu & Hid).
    assert (u = u0) as ->
      by (apply (NoDup_fmap_eq User.id (users db)); [done..|congruence]).
    done.
  - exfalso. rewrite first_None in Hu. by apply (Hu u0).
Qed.

End Tables.

Lemma demo_history :
  @handle_all Demo.P Demo.history empty_db = Demo.db1 "tts" false.
Proof. vm_compute. reflexivity. Qed.

Lemma demo_consistent : consistent (Demo.db1 "tts" false).
Proof.
  rewrite <- demo_history.
  apply (@handle_all_consistent Demo.P), empty_db_consistent.
Qed.

Lemma tables_stay_consistent_witness :
  let db' := @handle_all Demo.P [(healthy 5, Boot)] (Demo.db1 "tts" false) in
  unique_ids db' ∧ unique_names db' ∧ unique_key_hash db' ∧ references_ok db'.
Proof.
  exact (@tables_stay_consistent Demo.P [(healthy 5, Boot)] (Demo.db1 "tts" false)
           demo_consistent).
Defined.

(** [alice] has nine keys and sends two requests for the tenth. *)
Lemma overlapping_creations_pass_quota_witness :
  let db := @handle_all Demo.P Demo.busy_history empty_db in
  let auth := AuthJwt Demo.alice Demo.alice_claims in
  let req := APIKeyCreateReq.mk None None None in
  live_keys 1 db = 9
  ∧ live_keys 1 (@create_api_key Demo.P (healthy 5) "c2" req auth
                   (@create_api_key Demo.P (healthy 5) "c1" req auth db).2).2 = 10
  ∧ live_keys 1 (@create_api_key_overlapping Demo.P (healthy 5) "c1" req auth
                   (healthy 5) "c2" req auth db).2 = 11.
Proof.
  intros db auth req.
  assert (live_keys 1 db = 9) as Hlive by (vm_compute; reflexivity).
  assert (∀ token_hex, token_hex = "c1" ∨ token_hex = "c2" →
            @hash_key_hmac Demo.P (gen_api_key "sk" token_hex)
            ∉ APIKey.key_hash <$> api_keys db) as Hfresh.
  { intros token_hex [-> | ->]; vm_compute; intros Hin;
      repeat (apply elem_of_cons in Hin as [Hin|Hin]; [discriminate|]);
      by apply elem_of_nil in Hin. }
  pose proof (@overlapping_creations_pass_quota Demo.P (healthy 5) (healthy 5)
                "c1" "c2" req req Demo.alice Demo.alice_claims Demo.alice_claims db
                Hlive (Hfresh "c1" (or_introl eq_refl)) (Hfresh "c2" (or_intror eq_refl)))
    as Hrace.
  destruct Hrace as ((_ & _ & Hserial) & (_ & _ & Hboth));
    [vm_compute; discriminate|reflexivity..|].
  split; [exact Hlive|]. split; [exact Hserial|exact Hboth].
Defined.

Lemma api_key_owner_found_witness :
  @get_current_user Demo.P (healthy 5) (Some "sk-a1") None (Demo.db1 "tts" false)
  ≠ HTTPException 401 "User not found".
Proof.
  refine (proj1 (@api_key_owner_found Demo.P 5 "sk-a1" None (Demo.db1 "tts" false)
                   demo_consistent _)).
  discriminate.
Defined.

(** ** A key from creation to revocation *)

Section KeyLife.
Context `{Platform}.

Lemma create_api_key_ok (env : Env) (token_hex : string) (req : APIKeyCreateReq.t)
    (auth : Auth) (db : DB) (out : APIKeyOut.t) (db' : DB) :
  create_api_key env token_hex req auth db = (Ok out, db') →
  let clear_key := gen_api_key "sk" token_hex in
  let user := auth_user auth in
  let scopes :=
    match APIKeyCreateReq.scopes req with
    | Some l => l
    | None => Py.get DEFAULT_SCOPES (value (User.user_type user)) ["generate:text"]
    end in
  let expires_at :=
    match APIKeyCreateReq.expires_days req with
    | Some d => if decide (d = 0) then None else Some (utcnow env + d * DAY)
    | None => None
    end in
  let api :=
    APIKey.mk (next_id (APIKey.id <$> api_keys db)) (User.org_id user) (User.id user)
              (hash_key_hmac clear_key) (mask_key clear_key)
              (APIKeyCreateReq.name req) (Some (Py.join "," scopes)) false
              (utcnow env) expires_at in
  auth_type auth = "jwt"
  ∧ first (λ a, APIKey.key_hash a = hash_key_hmac clear_key) (api_keys db) = None
  ∧ live_keys (User.id user) db
    < Py.get API_KEY_QUOTA (value (User.user_type user)) 10
  ∧ db' = mkDB (orgs db) (users db) (api_keys db ++ [api])
  ∧ out = APIKeyOut.mk (APIKey.id api) (APIKey.org_id api) (APIKey.user_id api)
            clear_key (APIKey.name api) scopes false (utcnow env) expires_at.
Proof.
  unfold create_api_key, live_keys.
  case_decide as Hjwt; [done|]. case_decide as Hroom; [done|].
  destruct (key_expires_at env req) as [e| |] eqn:Hdate; [|done..].
  apply key_expires_at_ok in Hdate as ->.
  destruct (first (λ a, APIKey.key_hash a = _) (api_keys db)) eqn:Hfresh; [done|].
  intros [= <- <-]. split.
  { destruct (decide (auth_type auth = "jwt")) as [?|Hn]; [done|by destruct Hjwt]. }
  simpl. repeat split; try done. lia.
Qed.

Lemma gen_api_key_nonempty (token_hex : string) :
  gen_api_key "sk" token_hex ≠ EmptyString.
Proof. done. Qed.

(** X4. A key that was created resolves its creator: with the secret
    the creation returned in the [x-api-key] header, a store that answers,
    and a time not after the expiry asked for, the resolver returns the
    creating user and the new row. *)
Theorem created_key_authenticates (env : Env) (token_hex : string)
    (req : APIKeyCreateReq.t) (user : User.t) (payload : claims) (db db' : DB)
    (out : APIKeyOut.t) (t : Z) (authorization : option string) :
  create_api_key env token_hex req (AuthJwt user payload) db = (Ok out, db') →
  NoDup (User.id <$> users db) → user ∈ users db →
  (∀ d, APIKeyCreateReq.expires_days req = Some d → d = 0 ∨ t ≤ utcnow env + d * DAY) →
  ∃ api,
    api_keys db' = api_keys db ++ [api]
    ∧ APIKey.id api = APIKeyOut.id out
    ∧ APIKey.key_hash api = hash_key_hmac (APIKeyOut.key out)
    ∧ get_current_user (healthy t) (Some (APIKeyOut.key out)) authorization db'
      = Ok (AuthApiKey user api).
Proof.
  intros Hcreate Hnd Huser Hexp.
  destruct (create_api_key_ok _ _ _ _ _ _ _ Hcreate) as (_ & Hfresh & _ & -> & ->).
  cbn [auth_user] in *. eexists. split; [reflexivity|]. split; [reflexivity|].
  split; [reflexivity|]. cbn [APIKeyOut.key].
  rewrite get_current_user_key by apply gen_api_key_nonempty. cbn [api_keys users].
  erewrite first_app_fresh; [| |by split].
  2:{ apply first_None. intros a Ha (Hh & _). rewrite first_None in Hfresh.
      by apply (Hfresh a). }
  unfold key_expired. cbn [APIKey.expires_at APIKey.user_id].
  assert (first (λ u, User.id u = User.id user) (users db) = Some user) as ->
    by (by apply (first_unique User.id)).
  destruct (APIKeyCreateReq.expires_days req) as [d|]; [|done].
  case_decide; [done|]. destruct (Hexp d eq_refl) as [?|?]; [done|].
  by rewrite bool_decide_eq_false_2 by lia.
Qed.

(** X5. The edges of [expires_days]: 0 is taken as no expiry, like a
    missing value; a negative number creates a key that is expired from the
    start, which the resolver refuses at every time from its creation on,
    but which is live for the quota. *)
Theorem expires_days_edges (env : Env) (token_hex : string)
    (name : option string) (scopes : option (list string)) (d : Z)
    (user : User.t) (payload : claims) (db db' : DB) (out : APIKeyOut.t)
    (t : Z) (authorization : option string) :
  d < 0 → utcnow env ≤ t →
  create_api_key env token_hex (APIKeyCreateReq.mk name (Some d) scopes)
    (AuthJwt user payload) db = (Ok out, db') →
  get_current_user (healthy t) (Some (APIKeyOut.key out)) authorization db'
  = HTTPException 401 "API key expired"
  ∧ live_keys (User.id user) db' = live_keys (User.id user) db + 1
  ∧ create_api_key env token_hex (APIKeyCreateReq.mk name (Some 0) scopes)
      (AuthJwt user payload) db
    = create_api_key env token_hex (APIKeyCreateReq.mk name None scopes)
        (AuthJwt user payload) db.
Proof.
  intros Hd Ht Hcreate.
  destruct (create_api_key_ok _ _ _ _ _ _ _ Hcreate) as (_ & Hfresh & _ & -> & ->).
  cbn [auth_user APIKeyCreateReq.expires_days] in *.
  split; [|split; [|done]].
  - cbn [APIKeyOut.key].
    rewrite get_current_user_key by apply gen_api_key_nonempty. cbn [api_keys].
    erewrite first_app_fresh; [| |by split].
    2:{ apply first_None. intros a Ha (Hh & _). rewrite first_None in Hfresh.
        by apply (Hfresh a). }
    unfold key_expired. cbn [APIKey.expires_at].
    rewrite decide_False by lia. rewrite bool_decide_eq_true_2; [done|].
    unfold DAY, SECOND. lia.
  - rewrite live_keys_add. cbn [APIKey.user_id APIKey.revoked].
    by rewrite decide_True.
Qed.

(** X6. A key that was revoked does not resolve any more: after its
    owner revoked it, the resolver answers 401 to its secret. *)
Theorem revoked_key_stops_authenticating (key_id : Z) (user : User.t)
    (payload : claims) (db : DB) (a : APIKey.t) (k : string) (t : Z)
    (authorization : option string) :
  unique_key_hash db → k ≠ EmptyString →
  a ∈ api_keys db → APIKey.id a = key_id → APIKey.user_id a = User.id user →
  APIKey.key_hash a = hash_key_hmac k →
  let r := revoke_api_key key_id (AuthJwt user payload) db in
  r.1 = Ok ("revoked", key_id)
  ∧ get_current_user (healthy t) (Some k) authorization r.2
    = HTTPException 401 "Invalid API key".
Proof.
  intros Hu Hk Ha Hid Hown Hhash r. subst r. unfold revoke_api_key.
  rewrite decide_False by (by intros ?). cbn [auth_user].
  destruct (first _ (api_keys db)) as [api|] eqn:Hfirst.
  2:{ exfalso. rewrite first_None in Hfirst. by apply (Hfirst a). }
  pose proof (first_Some _ _ _ Hfirst) as (_ & Hapi & _). simpl.
  split; [by rewrite Hapi|].
  apply revoked_key_refused; [done| |].
  - unfold unique_key_hash. simpl. by rewrite commit_revoked_hashes.
  - unfold has_revoked, commit_revoked. simpl. eexists.
    split; [apply list_elem_of_fmap_2, Ha|].
    rewrite decide_True by congruence. done.
Qed.

End KeyLife.

(** ** Scopes of a key *)

Lemma split_lacks (c : ascii) (s : string) :
  lacks c s = true → Py.split c s = [s].
Proof.
  induction s as [|c' s IH]; [done|]. simpl.
  intros (Hc & Hs)%andb_prop. apply negb_true_iff, bool_decide_eq_false in Hc.
  rewrite decide_False by done. by rewrite (IH Hs).
Qed.

Lemma split_app (c : ascii) (x r : string) :
  lacks c x = true → Py.split c (x +:+ String c r) = x :: Py.split c r.
Proof.
  induction x as [|c' x IH]; simpl.
  - intros _. by rewrite decide_True.
  - intros (Hc & Hx)%andb_prop. apply negb_true_iff, bool_decide_eq_false in Hc.
    rewrite decide_False by done. by rewrite (IH Hx).
Qed.

Lemma split_join (l : list string) :
  l ≠ [] → Forall (λ s, lacks "," s = true) l →
  Py.split "," (Py.join "," l) = l.
Proof.
  unfold Py.join. induction l as [|x l IH]; [done|]. intros _ Hall.
  apply Forall_cons in Hall as (Hx & Hall).
  destruct l as [|y l]; [by apply split_lacks|].
  change (String.concat "," (x :: y :: l))
    with (x +:+ String "," (String.concat "," (y :: l))).
  rewrite split_app by done. f_equal. by apply IH.
Qed.

Lemma join_empty (l : list string) :
  Py.join "," l = EmptyString → l = [] ∨ l = [EmptyString].
Proof.
  unfold Py.join. destruct l as [|x [|y l]]; [by left|by right; simpl in *; subst|].
  change (String.concat "," (x :: y :: l))
    with (x +:+ String "," (String.concat "," (y :: l))).
  intros Heq. by destruct x.
Qed.

(** The scopes stored as a joined string read back as the list. *)
Lemma key_scopes_join (a : APIKey.t) (l : list string) :
  APIKey.scopes a = Some (Py.join "," l) →
  Forall (λ s, lacks "," s = true) l → l ≠ [EmptyString] →
  key_scopes a = l.
Proof.
  intros Hs Hall Hne. unfold key_scopes, truthy. rewrite Hs.
  case_decide as Hempty.
  - by destruct (join_empty l Hempty) as [->| ->].
  - apply split_join; [|done]. by intros ->.
Qed.

Lemma default_scopes_plain (t : UserTypeEnum) :
  let l := Py.get DEFAULT_SCOPES (value t) ["generate:text"] in
  Forall (λ s, lacks "," s = true) l ∧ l ≠ [EmptyString] ∧ "generate:text" ∈ l.
Proof.
  destruct t; vm_compute; (split; [repeat constructor|split; [discriminate|]]);
    apply list_elem_of_here.
Qed.

Section Scopes.
Context `{Platform}.

Lemma created_key_scopes_aux (env : Env) (token_hex : string)
    (name : option string) (expires_days : option Z) (user : User.t)
    (payload : claims) (db db' : DB) (out : APIKeyOut.t) :
  create_api_key env token_hex (APIKeyCreateReq.mk name expires_days None)
    (AuthJwt user payload) db = (Ok out, db') →
  ∃ api, api_keys db' = api_keys db ++ [api] ∧ "generate:text" ∈ key_scopes api.
Proof.
  intros Hcreate.
  destruct (create_api_key_ok _ _ _ _ _ _ _ Hcreate) as (_ & _ & _ & -> & _).
  cbn [auth_user APIKeyCreateReq.scopes] in *. eexists. split; [reflexivity|].
  destruct (default_scopes_plain (User.user_type user)) as (Hall & Hne & Hin).
  by erewrite key_scopes_join.
Qed.

(** X7. The scopes of a created key are the scopes of the request, for
    a user of any type, and the tier's default scopes when the request has
    none: what is stored as a comma-joined string reads back as the same
    list, provided no scope contains a comma and the list is not the single
    empty scope. *)
Theorem created_key_scopes (env : Env) (token_hex : string)
    (req : APIKeyCreateReq.t) (user : User.t) (payload : claims) (db db' : DB)
    (out : APIKeyOut.t) :
  create_api_key env token_hex req (AuthJwt user payload) db = (Ok out, db') →
  let l := match APIKeyCreateReq.scopes req with
           | Some l => l
           | None => Py.get DEFAULT_SCOPES (value (User.user_type user)) ["generate:text"]
           end in
  (APIKeyCreateReq.scopes req ≠ None →
   Forall (λ s, lacks "," s = true) l ∧ l ≠ [EmptyString]) →
  ∃ api, api_keys db' = api_keys db ++ [api]
         ∧ APIKeyOut.scopes out = l ∧ key_scopes api = l.
Proof.
  intros Hcreate l Hplain.
  destruct (create_api_key_ok _ _ _ _ _ _ _ Hcreate) as (_ & _ & _ & -> & ->).
  cbn [auth_user] in *. eexists. split; [reflexivity|]. split; [reflexivity|].
  assert (Forall (λ s, lacks "," s = true) l ∧ l ≠ [EmptyString]) as (Hall & Hne).
  { subst l. destruct (APIKeyCreateReq.scopes req) as [l0|]; [by apply Hplain|].
    by destruct (default_scopes_plain (User.user_type user)) as (? & ? & _). }
  by apply key_scopes_join.
Qed.

(** X8. A key created without scopes in the request passes the scope
    check of [generate] for every tier: the call is answered 429 when the
    limiter refuses and succeeds otherwise, never 403. *)
Theorem default_key_passes_scope_check (env env' : Env) (token_hex : string)
    (name : option string) (expires_days : option Z) (user : User.t)
    (payload : claims) (db db' : DB) (out : APIKeyOut.t) (body : string)
    (rcli : Redis.store) :
  create_api_key env token_hex (APIKeyCreateReq.mk name expires_days None)
    (AuthJwt user payload) db = (Ok out, db') →
  ∃ api, api_keys db' = api_keys db ++ [api]
    ∧ let lim := rate_limit_check_by_user env' (User.id user)
                   (value (User.user_type user)) rcli in
      generate env' body (AuthApiKey user api) rcli
      = (if lim.1.1
         then Ok ("Generated content for org " +:+ Py.str (User.org_id user)
                  +:+ " by api_key user " +:+ User.username user, body)
         else HTTPException 429 (rate_detail lim.1.2), lim.2).
Proof.
  intros Hcreate.
  destruct (created_key_scopes_aux env token_hex name expires_days user payload
              db db' out Hcreate) as (api & Hdb & Hscopes).
  exists api. split; [done|]. unfold generate. cbn [auth_user].
  destruct (rate_limit_check_by_user env' _ _ rcli) as [[allowed info] r1].
  simpl. destruct allowed; simpl; [|done].
  rewrite decide_False; [done|]. intros Hnot. by apply Hnot.
Qed.

End Scopes.

(** ** Accounts *)

Section Accounts.
Context `{Platform}.

(** X9. After a signup that succeeded, the user is in the tables with
    the organization just created, the type and admin flag of the request
    (NORMAL and not admin when missing), and can log in with the password,
    if the password library verifies what it hashed. *)
Theorem signup_then_login (env env' : Env) (payload : SignupReq.t) (db db' : DB)
    (out : Z * Z * string) :
  signup env payload db = (Ok out, db') →
  pwd_context_verify (SignupReq.password payload)
    (pwd_context_hash (SignupReq.password payload)) = true →
  ∃ o u,
    orgs db' = orgs db ++ [o] ∧ users db' = users db ++ [u]
    ∧ api_keys db' = api_keys db
    ∧ Org.name o = SignupReq.org_name payload ∧ User.org_id u = Org.id o
    ∧ User.username u = SignupReq.username payload
    ∧ User.user_type u = default NORMAL (SignupReq.user_type payload)
    ∧ User.is_admin u = default false (SignupReq.is_admin payload)
    ∧ out = (Org.id o, User.id u, User.username u)
    ∧ token env' (SignupReq.username payload) (SignupReq.password payload) db'
      = Ok (jwt_encode (session_claims u (utcnow env')) SECRET_KEY).
Proof.
  unfold signup. intros Hsignup Hpw.
  destruct (first _ (orgs db)) eqn:Horg; [done|].
  destruct (first _ (users db)) eqn:Huser; [done|].
  injection Hsignup as <- <-. eexists _, _.
  repeat (split; [reflexivity|]).
  unfold token. cbn [users].
  erewrite first_app_fresh; [|done|done].
  cbn [User.hashed_password]. by rewrite Hpw.
Qed.

(** X10. A signup with a new organization name and a username that is
    taken ends in an integrity error after the organization was committed:
    the organization stays, without the user, and every later signup with
    that organization name is refused with "org exists". *)
Theorem signup_taken_username_keeps_org (env : Env) (payload : SignupReq.t)
    (db : DB) (u0 : User.t) :
  first (λ o, Org.name o = SignupReq.org_name payload) (orgs db) = None →
  u0 ∈ users db → User.username u0 = SignupReq.username payload →
  let r := signup env payload db in
  r.1 = Uncaught IntegrityError
  ∧ users r.2 = users db
  ∧ (∃ o, orgs r.2 = orgs db ++ [o] ∧ Org.name o = SignupReq.org_name payload)
  ∧ ∀ env' payload',
      SignupReq.org_name payload' = SignupReq.org_name payload →
      signup env' payload' r.2 = (HTTPException 400 "org exists", r.2).
Proof.
  intros Horg Hu0 Hname r.
  set (org := Org.mk (next_id (Org.id <$> orgs db)) (SignupReq.org_name payload)
                     (utcnow env)).
  assert (r = (Uncaught IntegrityError,
               mkDB (orgs db ++ [org]) (users db) (api_keys db))) as ->.
  { subst r. unfold signup. rewrite Horg.
    destruct (first (λ u, User.username u = _) (users db)) eqn:Huser; [done|].
    exfalso. rewrite first_None in Huser. by apply (Huser u0). }
  cbn [fst snd users orgs]. split; [done|]. split; [done|].
  split; [by exists org|].
  intros env' payload' Heq. unfold signup. rewrite Heq. cbn [orgs].
  by erewrite first_app_fresh.
Qed.

Lemma startup_fixed (env : Env) (db : DB) (o : Org.t) (a : User.t) :
  first (λ o, Org.name o = "demo_org") (orgs db) = Some o →
  first (λ u, User.username u = "admin") (users db) = Some a →
  startup env db = db.
Proof. intros Ho Ha. unfold startup. rewrite Ho. by rewrite Ha. Qed.

Lemma startup_has (env : Env) (db : DB) :
  (∃ o, first (λ o, Org.name o = "demo_org") (orgs (startup env db)) = Some o)
  ∧ (∃ a, first (λ u, User.username u = "admin") (users (startup env db)) = Some a).
Proof.
  unfold startup.
  destruct (first (λ o, Org.name o = "demo_org") (orgs db)) as [org|] eqn:Horg.
  - destruct (first (λ u, User.username u = "admin") (users db)) as [adm|] eqn:Hadm.
    + split; by eexists.
    + cbn [orgs users]. split; [by eexists|].
      eexists. by apply first_app_fresh.
  - cbn [orgs users].
    destruct (first (λ u, User.username u = "admin") (users db)) as [adm|] eqn:Hadm.
    + cbn [orgs users]. split; [|by eexists]. eexists. by apply first_app_fresh.
    + cbn [orgs users]. split; eexists; by apply first_app_fresh.
Qed.

(** X11. Starting the process twice is starting it once; afterwards the
    organization "demo_org" and the user "admin" exist, and on an empty
    database the admin is an ENTERPRISE administrator of "demo_org". *)
Theorem startup_idempotent (env env' : Env) (db : DB) :
  startup env' (startup env db) = startup env db
  ∧ (∃ o, o ∈ orgs (startup env db) ∧ Org.name o = "demo_org")
  ∧ (∃ u, u ∈ users (startup env db) ∧ User.username u = "admin")
  ∧ startup env empty_db
    = mkDB [Org.mk 1 "demo_org" (utcnow env)]
           [User.mk 1 1 "admin" (pwd_context_hash "password") true ENTERPRISE
                    (utcnow env)] [].
Proof.
  destruct (startup_has env db) as ((o & Ho) & (a & Ha)).
  split; [|split; [|split; [|done]]].
  - by apply (startup_fixed env' _ o a).
  - exists o. by apply first_Some in Ho.
  - exists a. by apply first_Some in Ha.
Qed.

(** X12. A token from a login resolves the user who logged in, as long
    as the time in whole seconds is not after the expiry written into it;
    after that the resolver answers 401.  The expiry is 3600 seconds after
    the login.  The token library is assumed to read back what it signed
    and to accept its other claims. *)
Theorem login_token_resolves (t0 t : Z) (username password tok : string)
    (u : User.t) (db : DB) :
  token (healthy t0) username password db = Ok tok →
  first (λ u, User.username u = username) (users db) = Some u →
  NoDup (User.id <$> users db) →
  jws_verify tok SECRET_KEY = Some (session_claims u t0) →
  (∀ now, claims_valid_before_exp (session_claims u t0) now = true) →
  claims_valid_after_exp (session_claims u t0) = true →
  int_of_str (Py.str (User.id u)) = Some (User.id u) →
  int_of_str (Py.str (User.org_id u)) = Some (User.org_id u) →
  let exp := int_seconds (t0 + ACCESS_TOKEN_EXPIRE_MINUTES * MINUTE) in
  let who := get_current_user (healthy t) None (Some ("Bearer " +:+ tok)) db in
  (t `div` SECOND ≤ exp → who = Ok (AuthJwt u (session_claims u t0)))
  ∧ (exp < t `div` SECOND → who = HTTPException 401 "Invalid token")
  ∧ (0 ≤ t0 → exp = int_seconds t0 + 3600).
Proof.
  intros _ Hu Hnd Hverify Hpre Hpost Hid Horg exp who.
  destruct (get_current_user_bearer (healthy t) None ("Bearer " +:+ tok)
              "Bearer" " " tok db) as (Hbad & Hgood); [done..|].
  assert (decode_access_token (healthy t) tok
          = if decide (exp < t `div` SECOND) then inl ExpiredSignatureError
            else inr (session_claims u t0)) as Hdec.
  { unfold decode_access_token, jwt_decode, validate_exp. rewrite Hverify, Hpre.
    cbn [negb utcnow healthy]. unfold session_claims at 1.
    rewrite lookup_insert_eq. cbn [py_int]. fold exp.
    case_decide; [done|]. by rewrite Hpost. }
  split; [|split].
  - intros Hle. rewrite decide_False in Hdec by lia. subst who.
    rewrite (Hgood _ (JStr (Py.str (User.id u))) (JStr (Py.str (User.org_id u)))
                   (User.id u) (User.org_id u) Hdec); [|done..].
    unfold query. cbn [db_fails healthy mbind result_bind].
    apply first_Some in Hu as (Hin & _).
    rewrite (first_unique User.id (users db) u Hnd Hin).
    by rewrite decide_False by (by intros ?).
  - intros Hlt. rewrite decide_True in Hdec by lia. subst who.
    by rewrite (Hbad _ Hdec).
  - intros Ht0. subst exp. unfold int_seconds, ACCESS_TOKEN_EXPIRE_MINUTES, MINUTE, SECOND.
    replace (t0 + 60 * (60 * 1000000)) with (t0 + 3600 * 1000000) by lia.
    rewrite !Z.quot_div_nonneg by lia. rewrite Z.div_add by lia. done.
Qed.

Lemma key_caller (env : Env) (x_api_key authorization : option string) (k : string)
    (db : DB) (auth : Auth) :
  truthy x_api_key = Some k →
  get_current_user env x_api_key authorization db = Ok auth →
  auth_type auth = "api_key".
Proof.
  unfold get_current_user, query. intros ->.
  destruct (db_fails env 0); [done|]. simpl.
  destruct (first _ (api_keys db)) as [api|]; [|done].
  destruct (key_expired _ api); [done|].
  destruct (db_fails env 1); [done|]. simpl.
  destruct (first _ (users db)) as [u|]; [|done]. by intros [= <-].
Qed.

(** X13. A request with an [x-api-key] header cannot manage keys,
    whatever else it carries (a valid bearer token too): creation,
    revocation and listing never succeed, and the database is not
    written. *)
Theorem api_key_header_blocks_key_management (env : Env)
    (x_api_key authorization : option string) (k token_hex : string)
    (req : APIKeyCreateReq.t) (key_id : Z) (db : DB) :
  truthy x_api_key = Some k →
  (is_ok (post_apikeys env x_api_key authorization token_hex req db).1 = false
   ∧ (post_apikeys env x_api_key authorization token_hex req db).2 = db)
  ∧ (is_ok (delete_apikeys env x_api_key authorization key_id db).1 = false
     ∧ (delete_apikeys env x_api_key authorization key_id db).2 = db)
  ∧ is_ok (get_apikeys env x_api_key authorization db) = false.
Proof.
  intros Hk. unfold post_apikeys, delete_apikeys, get_apikeys.
  destruct (get_current_user env x_api_key authorization db) as [auth| |] eqn:Hauth;
    [|done..].
  pose proof (key_caller _ _ _ _ _ _ Hk Hauth) as Htype.
  unfold create_api_key, revoke_api_key, list_api_keys. simpl. rewrite Htype.
  done.
Qed.

End Accounts.

(** ** Masking *)

Lemma string_length_app (a b : string) :
  String.length (a +:+ b) = (String.length a + String.length b)%nat.
Proof. induction a as [|c a IH]; simpl; [done|]. by rewrite IH. Qed.

Lemma substring_length (s : string) (m n : nat) :
  (m + n ≤ String.length s)%nat → String.length (String.substring m n s) = n.
Proof.
  revert m n. induction s as [|c s IH]; intros m n Hle; simpl in *.
  - destruct m, n; simpl; lia.
  - destruct m as [|m].
    + destruct n as [|n]; simpl; [done|]. rewrite (IH 0%nat n); [done|lia].
    + apply IH. lia.
Qed.

Lemma substring_0_app (a b : string) :
  String.substring 0 (String.length a) (a +:+ b) = a.
Proof.
  induction a as [|c a IH]; simpl; [by destruct b|]. by rewrite IH.
Qed.

Lemma substring_skip_app (a b : string) (m n : nat) :
  String.substring (String.length a + m) n (a +:+ b) = String.substring m n b.
Proof. induction a as [|c a IH]; simpl; [done|]. apply IH. Qed.

Lemma substring_all (s : string) : String.substring 0 (String.length s) s = s.
Proof. induction s as [|c s IH]; simpl; [done|]. by rewrite IH. Qed.

(** X14. [mask_key] leaves a key of at most nine characters as it is.
    A longer key becomes thirteen characters: its first five, four stars,
    and its last four, so that two keys that agree on these nine characters
    have the same mask. *)
Theorem mask_key_shape (key key' : string) :
  ((String.length key ≤ 9)%nat → mask_key key = key)
  ∧ ((9 < String.length key)%nat →
     String.length (mask_key key) = 13%nat
     ∧ Py.prefix 5 (mask_key key) = Py.prefix 5 key
     ∧ String.substring 5 4 (mask_key key) = "****"
     ∧ Py.suffix 4 (mask_key key) = Py.suffix 4 key
     ∧ ((9 < String.length key')%nat →
        Py.prefix 5 key' = Py.prefix 5 key → Py.suffix 4 key' = Py.suffix 4 key →
        mask_key key' = mask_key key)).
Proof.
  unfold mask_key. split.
  - intros Hle. by rewrite decide_True by by right.
  - intros Hlt.
    assert (key ≠ EmptyString) as Hne by (intros ->; simpl in Hlt; lia).
    rewrite decide_False by (intros [?|?]; [done|lia]).
    assert (String.length (Py.prefix 5 key) = 5%nat) as Hp
      by (apply substring_length; lia).
    assert (String.length (Py.suffix 4 key) = 4%nat) as Hs
      by (apply substring_length; lia).
    split; [|split; [|split; [|split]]].
    + rewrite !string_length_app, Hp, Hs. done.
    + unfold Py.prefix at 1. rewrite <- Hp at 1. apply substring_0_app.
    + replace 5%nat with (String.length (Py.prefix 5 key) + 0)%nat at 1 by lia.
      rewrite substring_skip_app.
      change 4%nat with (String.length "****") at 1. apply substring_0_app.
    + unfold Py.suffix at 1. rewrite !string_length_app, Hp, Hs.
      change (5 + (String.length "****" + 4) - 4)%nat
        with (5 + (String.length "****" + 0))%nat.
      rewrite <- Hp at 1. rewrite substring_skip_app, substring_skip_app.
      rewrite <- Hs at 1. apply substring_all.
    + intros Hlt' Hpre Hsuf.
      assert (key' ≠ EmptyString) by (intros ->; simpl in Hlt'; lia).
      rewrite decide_False by (intros [?|?]; [done|lia]).
      by rewrite Hpre, Hsuf.
Qed.

Lemma mask_key_long (key : string) :
  (9 < String.length key)%nat → String.length (mask_key key) = 13%nat.
Proof.
  intros Hlt. unfold mask_key.
  assert (key ≠ EmptyString) as Hne by (intros ->; simpl in Hlt; lia).
  rewrite decide_False by (intros [?|?]; [done|lia]).
  rewrite !string_length_app. unfold Py.prefix, Py.suffix.
  rewrite !substring_length by lia. done.
Qed.

(** ** The listings *)

Section Listings.
Context `{Platform}.

(** X15. The listing of a token holder shows that user's keys and no
    others, revoked ones too, each with the stored preview in place of the
    key.  A key just created from a 32-character random part shows up with
    the thirteen-character mask of its secret, not with the secret. *)
Theorem list_api_keys_own_masked (env : Env) (token_hex : string)
    (req : APIKeyCreateReq.t) (user : User.t) (payload : claims) (db db' : DB)
    (out : APIKeyOut.t) :
  create_api_key env token_hex req (AuthJwt user payload) db = (Ok out, db') →
  String.length token_hex = 32%nat →
  ∃ outs,
    list_api_keys (AuthJwt user payload) db' = Ok outs
    ∧ (∀ o, o ∈ outs →
         APIKeyOut.user_id o = User.id user
         ∧ ∃ a, a ∈ api_keys db' ∧ APIKey.id a = APIKeyOut.id o
                ∧ APIKeyOut.key o = APIKey.key_preview a
                ∧ APIKeyOut.revoked o = APIKey.revoked a)
    ∧ (∀ a, a ∈ api_keys db' → APIKey.user_id a = User.id user →
         ∃ o, o ∈ outs ∧ APIKeyOut.id o = APIKey.id a)
    ∧ ∃ o, o ∈ outs ∧ APIKeyOut.id o = APIKeyOut.id out
           ∧ APIKeyOut.key o = mask_key (APIKeyOut.key out)
           ∧ String.length (APIKeyOut.key o) = 13%nat
           ∧ APIKeyOut.key o ≠ APIKeyOut.key out.
Proof.
  intros Hcreate Hlen.
  destruct (create_api_key_ok _ _ _ _ _ _ _ Hcreate) as (_ & _ & _ & -> & ->).
  cbn [auth_user] in *. unfold list_api_keys.
  rewrite decide_False by (by intros ?). cbn [auth_user api_keys].
  set (api := APIKey.mk _ _ _ _ _ _ _ _ _ _).
  set (row := λ a : APIKey.t, APIKeyOut.mk _ _ _ _ _ _ _ _ _).
  eexists. split; [reflexivity|]. split; [|split].
  - intros o Ho. apply list_elem_of_fmap in Ho as (a & -> & Ha).
    apply list_elem_of_filter in Ha as (Hown & Ha). split; [done|]. by exists a.
  - intros a Ha Hown. exists (row a). split; [|reflexivity].
    apply list_elem_of_fmap_2. by apply list_elem_of_filter.
  - assert (String.length (gen_api_key "sk" token_hex) = 35%nat) as Hclear
      by (unfold gen_api_key; rewrite !string_length_app, Hlen; done).
    exists (row api). split; [|split; [|split; [|split]]]; try done.
    + apply list_elem_of_fmap_2. apply list_elem_of_filter. split; [done|].
      apply elem_of_app. right. by apply list_elem_of_singleton.
    + cbn [row api APIKeyOut.key APIKey.key_preview]. apply mask_key_long. lia.
    + cbn [row api APIKeyOut.key APIKey.key_preview].
      intros Heq. pose proof (mask_key_long (gen_api_key "sk" token_hex)) as Hm.
      rewrite Heq, Hclear in Hm. lia.
Qed.

(** X16. The admin listing succeeds exactly for an administrator who
    asks for the own organization.  In a consistent database it then shows
    every key of that organization and nothing else: each row is a key
    whose owner is a user of the caller's organization. *)
Theorem list_org_keys_same_tenant (org_id : Z) (auth : Auth) (db : DB) :
  consistent db →
  let r := list_org_keys org_id auth db in
  (is_ok r = true ↔
     User.org_id (auth_user auth) = org_id ∧ User.is_admin (auth_user auth) = true)
  ∧ (is_ok r = false → status_of r = Some 403)
  ∧ ∀ outs, r = Ok outs →
      (∀ o, o ∈ outs →
         ∃ a u, a ∈ api_keys db ∧ u ∈ users db
                ∧ APIKey.id a = OrgKeyOut.id o
                ∧ OrgKeyOut.key_preview o = APIKey.key_preview a
                ∧ User.id u = OrgKeyOut.user_id o
                ∧ User.org_id u = User.org_id (auth_user auth))
      ∧ (∀ a, a ∈ api_keys db → APIKey.org_id a = org_id →
           ∃ o, o ∈ outs ∧ OrgKeyOut.id o = APIKey.id a).
Proof.
  intros (_ & _ & _ & (_ & Hrk) & _) r. subst r. unfold list_org_keys.
  destruct (decide (User.org_id (auth_user auth) ≠ org_id)) as [Hne|Heq].
  { split; [|done]. split; [done|]. by intros (? & _). }
  assert (User.org_id (auth_user auth) = org_id) as Horg
    by (destruct (decide (User.org_id (auth_user auth) = org_id)); [done|by destruct Heq]).
  destruct (User.is_admin (auth_user auth)) eqn:Hadm; simpl.
  2:{ split; [|done]. split; [done|]. by intros (_ & ?). }
  split; [done|]. split; [done|].
  set (row := λ a : APIKey.t, OrgKeyOut.mk _ _ _ _ _ _ _).
  intros outs [= <-]. split.
  - intros o Ho. apply list_elem_of_fmap in Ho as (a & -> & Ha).
    apply list_elem_of_filter in Ha as (Hin_org & Ha).
    destruct (Hrk a Ha) as (u & Hu & Hid & Huorg).
    exists a, u. repeat split; try done. simpl. congruence.
  - intros a Ha Hin_org. exists (row a). split; [|reflexivity].
    apply list_elem_of_fmap_2. by apply list_elem_of_filter.
Qed.

End Listings.

(** ** The counters of the limiter *)

Lemma pretty_N_go_lacks (x : N) (s : string) :
  lacks ":" s = true → lacks ":" (pretty_N_go x s) = true.
Proof.
  revert s. induction (N.lt_wf_0 x) as [x _ IH]; intros s Hs.
  assert (x = 0 ∨ 0 < x)%N as [->|Hpos] by lia; [by rewrite pretty_N_go_0|].
  rewrite pretty_N_go_step by done. apply IH; [by apply N.div_lt|].
  simpl. rewrite Hs. unfold pretty_N_char. by repeat case_match.
Qed.

Lemma pretty_Z_lacks (z : Z) : lacks ":" (pretty z) = true.
Proof.
  assert (∀ p : positive, lacks ":" (pretty p) = true) as Hpos.
  { intros p. unfold pretty, pretty_positive, pretty, pretty_N.
    case_decide; [done|]. by apply pretty_N_go_lacks. }
  unfold pretty, pretty_Z. destruct z as [|p|p]; [done|apply Hpos|].
  simpl. apply Hpos.
Qed.

Lemma app_sep_inj (c : ascii) (a a' b b' : string) :
  lacks c a = true → lacks c a' = true →
  a +:+ String c b = a' +:+ String c b' → a = a' ∧ b = b'.
Proof.
  revert a'. induction a as [|x a IH]; intros [|x' a'] Ha Ha' Heq; simpl in *.
  - by injection Heq.
  - injection Heq as <- _. apply andb_prop in Ha' as (Hx & _).
    apply negb_true_iff, bool_decide_eq_false in Hx. done.
  - injection Heq as -> _. apply andb_prop in Ha as (Hx & _).
    apply negb_true_iff, bool_decide_eq_false in Hx. done.
  - injection Heq as -> Heq.
    apply andb_prop in Ha as (_ & Ha). apply andb_prop in Ha' as (_ & Ha').
    destruct (IH a' Ha Ha' Heq) as (-> & ->). done.
Qed.

(** Users and seconds have counters of their own. *)
Lemma rl_key_inj (user_id now_s user_id' now_s' : Z) :
  rl_key user_id now_s = rl_key user_id' now_s' →
  user_id = user_id' ∧ now_s = now_s'.
Proof.
  unfold rl_key, Py.str. intros Heq. simpl in Heq. injection Heq as Heq.
  apply app_sep_inj in Heq as (Hu & Hw); [|apply pretty_Z_lacks..].
  split; by apply (inj pretty).
Qed.

Lemma incr_other (t : Z) (key key' : string) (s : Redis.store) :
  key' ≠ key → (Redis.incr t key s).2 !! key' = s !! key'.
Proof.
  intros Hne. unfold Redis.incr.
  destruct (Redis.get t key s); simpl; by rewrite lookup_insert_ne.
Qed.

Lemma expire_other (t secs : Z) (key key' : string) (s : Redis.store) :
  key' ≠ key → Redis.expire t key secs s !! key' = s !! key'.
Proof.
  intros Hne. unfold Redis.expire.
  destruct (Redis.get t key s); [by rewrite lookup_insert_ne|done].
Qed.

Lemma limiter_other_key (env : Env) (user_id : Z) (user_type key' : string)
    (rcli : Redis.store) :
  key' ≠ rl_key user_id (int_seconds (utcnow env)) →
  (rate_limit_check_by_user env user_id user_type rcli).2 !! key' = rcli !! key'.
Proof.
  intros Hne. unfold rate_limit_check_by_user, rcli_incr, rcli_expire.
  case_decide; [done|]. case_decide; [done|].
  pose proof (incr_other (utcnow env) _ key' rcli Hne) as Hincr.
  destruct (Redis.incr (utcnow env) _ rcli) as [cur r1]. simpl in Hincr.
  destruct (incr_fault env); simpl; [|done..].
  case_decide; [|by case_decide].
  pose proof (expire_other (utcnow env) 2 _ key' r1 Hne) as Hexp.
  destruct (expire_fault env); simpl; [case_decide; simpl| |]; congruence.
Qed.

Lemma admit_all_other_key (user_id : Z) (user_type key' : string)
    (envs : list Env) (rcli : Redis.store) :
  Forall (λ e, key' ≠ rl_key user_id (int_seconds (utcnow e))) envs →
  (admit_all user_id user_type envs rcli).2 !! key' = rcli !! key'.
Proof.
  intros Hall. revert rcli. induction Hall as [|e envs He _ IH]; intros rcli; [done|].
  cbn [admit_all].
  pose proof (limiter_other_key e user_id user_type key' rcli He) as Hstep.
  destruct (rate_limit_check_by_user e user_id user_type rcli) as [v r1].
  specialize (IH r1). destruct (admit_all user_id user_type envs r1) as [vs r2].
  simpl in *. congruence.
Qed.

(** X17. A call of the limiter, whatever the backend does, leaves the
    counters of other users and of other seconds as they were: the names
    of the counters are different for different users or seconds. *)
Theorem limiter_counters_are_separate (env : Env) (user_id user_id' w' : Z)
    (user_type : string) (rcli : Redis.store) :
  user_id' ≠ user_id ∨ w' ≠ int_seconds (utcnow env) →
  rl_key user_id' w' ≠ rl_key user_id (int_seconds (utcnow env))
  ∧ (rate_limit_check_by_user env user_id user_type rcli).2 !! rl_key user_id' w'
    = rcli !! rl_key user_id' w'.
Proof.
  intros Hdiff.
  assert (rl_key user_id' w' ≠ rl_key user_id (int_seconds (utcnow env))) as Hne.
  { intros (? & ?)%rl_key_inj. by destruct Hdiff. }
  split; [done|]. by apply limiter_other_key.
Qed.

(** X18. A new second starts from zero: after any calls of the user in
    other seconds, with any backend behaviour, the first call in a second
    that has no counter yet is admitted, for a limited user type and a
    backend that answers. *)
Theorem next_window_admits (user_id t' : Z) (user_type : string)
    (envs : list Env) (rcli : Redis.store) :
  user_type ≠ value ENTERPRISE →
  Forall (λ e, int_seconds (utcnow e) ≠ int_seconds t') envs →
  rcli !! rl_key user_id (int_seconds t') = None →
  let r := (admit_all user_id user_type envs rcli).2 in
  (rate_limit_check_by_user (healthy t') user_id user_type r).1 = (true, None)
  ∧ Redis.val <$> (rate_limit_check_by_user (healthy t') user_id user_type r).2
                  !! rl_key user_id (int_seconds t') = Some 1.
Proof.
  intros Hne Hall Hfresh r.
  assert (r !! rl_key user_id (int_seconds t') = None) as Hr.
  { subst r. rewrite admit_all_other_key; [done|].
    eapply Forall_impl; [exact Hall|]. simpl.
    intros e He (_ & Heq)%rl_key_inj. by apply He. }
  pose proof (quota_positive _ Hne) as Hpos.
  rewrite rate_limit_healthy by done. cbn [fst snd].
  unfold Redis.incr, Redis.get. rewrite Hr. cbn [fst snd].
  rewrite decide_True by done. unfold verdict. rewrite decide_False by lia.
  split; [done|].
  unfold Redis.expire, Redis.get. rewrite lookup_insert_eq. simpl.
  by rewrite lookup_insert_eq.
Qed.

(** A later call of the user with a backend that answers keeps the
    deadline of a counter, set or not. *)
Lemma later_call_keeps_deadline (t t'' user_id : Z) (user_type : string)
    (rcli : Redis.store) (e : Redis.entry) :
  rcli !! rl_key user_id (int_seconds t) = Some e → 1 ≤ Redis.val e →
  Redis.deadline e = None ∨ Redis.deadline e = Some (t + 2 * SECOND) →
  ∃ e', (rate_limit_check_by_user (healthy t'') user_id user_type rcli).2
          !! rl_key user_id (int_seconds t) = Some e'
        ∧ 1 ≤ Redis.val e' ∧ Redis.deadline e' = Redis.deadline e.
Proof.
  intros He Hval Hdl.
  destruct (decide (rl_key user_id (int_seconds t)
                    = rl_key user_id (int_seconds (utcnow (healthy t''))))) as [Heq|Hne].
  2:{ exists e. by rewrite limiter_other_key. }
  destruct (decide (user_type = value ENTERPRISE)) as [->|Hut]; [by exists e|].
  rewrite rate_limit_healthy by done. cbn [utcnow healthy] in Heq. rewrite <- Heq.
  apply rl_key_inj in Heq as (_ & Hw). cbn [fst snd].
  assert (Redis.live t'' e = true) as Hlive.
  { unfold Redis.live. destruct Hdl as [-> | ->]; [done|].
    apply bool_decide_eq_true_2. by apply same_window_close. }
  unfold Redis.incr, Redis.get. rewrite He, Hlive. cbn [fst snd].
  rewrite decide_False by lia. rewrite lookup_insert_eq.
  eexists. split; [reflexivity|]. simpl. split; [lia|done].
Qed.

Lemma later_calls_keep_deadline (t user_id : Z) (user_type : string)
    (times : list Z) (rcli : Redis.store) (e : Redis.entry) :
  rcli !! rl_key user_id (int_seconds t) = Some e → 1 ≤ Redis.val e →
  Redis.deadline e = None ∨ Redis.deadline e = Some (t + 2 * SECOND) →
  ∃ e', (admit_all user_id user_type (healthy <$> times) rcli).2
          !! rl_key user_id (int_seconds t) = Some e'
        ∧ 1 ≤ Redis.val e' ∧ Redis.deadline e' = Redis.deadline e.
Proof.
  revert rcli e. induction times as [|t'' times IH]; intros rcli e He Hval Hdl.
  - by exists e.
  - cbn [fmap list_fmap admit_all].
    change (list_fmap _ _ healthy times) with (healthy <$> times).
    destruct (later_call_keeps_deadline t t'' user_id user_type rcli e He Hval Hdl)
      as (e1 & He1 & Hval1 & Hdl1).
    destruct (rate_limit_check_by_user (healthy t'') user_id user_type rcli) as [v r1].
    simpl in He1. rewrite <- Hdl1 in Hdl.
    destruct (IH r1 e1 He1 Hval1 Hdl) as (e' & He' & Hval' & Hdl').
    destruct (admit_all user_id user_type (healthy <$> times) r1) as [vs r2].
    simpl in *. exists e'. repeat split; [done..|congruence].
Qed.

(** X19. The first call of a second sets the counter to 1 with a
    deadline two seconds later; later calls of the user leave that
    deadline alone, so the counter is gone from then on.  If that one
    EXPIRE is lost, the counter has no deadline, no later call sets one,
    and the counter stays in the store for good. *)
Theorem counter_deadline (t user_id : Z) (user_type : string) (times : list Z)
    (rcli : Redis.store) :
  user_type ≠ value ENTERPRISE →
  Redis.get t (rl_key user_id (int_seconds t)) rcli = None →
  let key := rl_key user_id (int_seconds t) in
  let first_ok := (rate_limit_check_by_user (healthy t) user_id user_type rcli).2 in
  let first_lost :=
    (rate_limit_check_by_user (mkEnv t (λ _, false) NoFault Dropped)
       user_id user_type rcli).2 in
  let later := λ r, (admit_all user_id user_type (healthy <$> times) r).2 in
  first_ok !! key = Some (Redis.mk 1 (Some (t + 2 * SECOND)))
  ∧ (∃ e, later first_ok !! key = Some e
          ∧ Redis.deadline e = Some (t + 2 * SECOND)
          ∧ ∀ t', t + 2 * SECOND ≤ t' → Redis.get t' key (later first_ok) = None)
  ∧ first_lost !! key = Some (Redis.mk 1 None)
  ∧ (∃ e, later first_lost !! key = Some e ∧ Redis.deadline e = None
          ∧ ∀ t', Redis.get t' key (later first_lost) = Some e).
Proof.
  intros Hne Hnone key first_ok first_lost later. fold key in Hnone.
  pose proof (quota_positive _ Hne) as Hpos.
  assert (first_ok !! key = Some (Redis.mk 1 (Some (t + 2 * SECOND)))) as Hok.
  { subst first_ok. rewrite rate_limit_healthy by done. cbn [fst snd]. fold key.
    unfold Redis.incr. rewrite Hnone. cbn [fst snd]. rewrite decide_True by done.
    unfold Redis.expire, Redis.get. rewrite lookup_insert_eq. simpl.
    by rewrite lookup_insert_eq. }
  assert (first_lost !! key = Some (Redis.mk 1 None)) as Hlost.
  { subst first_lost. unfold rate_limit_check_by_user, rcli_incr, rcli_expire.
    rewrite decide_False by done. rewrite decide_False by lia.
    cbn [incr_fault expire_fault utcnow]. fold key.
    unfold Redis.incr. rewrite Hnone. cbn [fst snd]. rewrite decide_True by done.
    simpl. by rewrite lookup_insert_eq. }
  split; [done|]. split; [|split; [done|]].
  - destruct (later_calls_keep_deadline t user_id user_type times first_ok _ Hok)
      as (e & He & _ & Hdl); [simpl; lia|by right|].
    exists e. fold key in He. split; [done|]. split; [done|].
    intros t' Ht'. unfold Redis.get. subst later. cbn beta. rewrite He.
    unfold Redis.live. rewrite Hdl. simpl.
    by rewrite bool_decide_eq_false_2 by lia.
  - destruct (later_calls_keep_deadline t user_id user_type times first_lost _ Hlost)
      as (e & He & _ & Hdl); [simpl; lia|by left|].
    exists e. fold key in He. split; [done|]. split; [done|].
    intros t'. unfold Redis.get. subst later. cbn beta. rewrite He.
    unfold Redis.live. by rewrite Hdl.
Qed.

(** ** Revocation across users *)

(** X20. With unique key ids, revocation touches only keys of the
    caller: a request for the key of another user is answered 404 (403
    when the caller came with an API key) and writes nothing, and after any
    revocation every row of another user is in the table as it was. *)
Theorem revoke_only_own_keys (key_id : Z) (auth : Auth) (db : DB) :
  NoDup (APIKey.id <$> api_keys db) →
  let r := revoke_api_key key_id auth db in
  (∀ a, a ∈ api_keys db → APIKey.id a = key_id →
        APIKey.user_id a ≠ User.id (auth_user auth) →
        r.1 = (if decide (auth_type auth = "jwt")
               then HTTPException 404 "API key not found"
               else HTTPException 403 "Only JWT users can revoke keys")
        ∧ r.2 = db)
  ∧ (∀ a, a ∈ api_keys db → APIKey.user_id a ≠ User.id (auth_user auth) →
          a ∈ api_keys r.2)
  ∧ orgs r.2 = orgs db ∧ users r.2 = users db.
Proof.
  intros Hnd r. subst r. unfold revoke_api_key.
  destruct (decide (auth_type auth ≠ "jwt")) as [Hjwt|Hjwt].
  { simpl. split; [|done]. intros a _ _ _. split; [|done]. by rewrite decide_False. }
  destruct (first _ (api_keys db)) as [api|] eqn:Hfirst.
  - apply first_Some in Hfirst as (Hin & Hid & Hown). simpl.
    split; [|split; [|done]].
    + intros a Ha Ha_id Hforeign. exfalso. apply Hforeign. rewrite <- Hown.
      f_equal. apply (NoDup_fmap_eq APIKey.id (api_keys db)); [done..|congruence].
    + intros a Ha Hforeign. unfold commit_revoked.
      assert (APIKey.id a ≠ APIKey.id api) as Hne.
      { intros Heq. apply Hforeign. rewrite <- Hown. f_equal.
        by apply (NoDup_fmap_eq APIKey.id (api_keys db)). }
      apply list_elem_of_fmap. exists a. split; [|done].
      by rewrite decide_False.
  - simpl. split; [|done]. intros a _ _ _. split; [|done].
    destruct (decide (auth_type auth = "jwt")); [done|by destruct Hjwt].
Qed.

(** ** The store fails during identity resolution *)

Section StoreFailure.
Context `{Platform}.

(** X21. A store that fails never changes what the resolver decides:
    under any failures the resolver gives the answer it gives with a store
    that answers, or ends with the uncaught OperationalError of the query
    that failed.  This holds for both queries of the key path: when the
    key was found and the lookup of its user fails, the request ends with
    that error and not with 401. *)
Theorem resolver_store_failure_uncaught (env : Env)
    (x_api_key authorization : option string) (db : DB) :
  let who := get_current_user env x_api_key authorization db in
  let quiet := get_current_user (healthy (utcnow env)) x_api_key authorization db in
  (who = quiet ∨ who = Uncaught OperationalError)
  ∧ ((∀ n, db_fails env n = false) → who = quiet)
  ∧ (∀ k api,
       truthy x_api_key = Some k →
       first (λ a, APIKey.key_hash a = hash_key_hmac k ∧ APIKey.revoked a = false)
             (api_keys db) = Some api →
       key_expired (utcnow env) api = false →
       db_fails env 0 = false → db_fails env 1 = true →
       who = Uncaught OperationalError).
Proof.
  cbv zeta. unfold get_current_user, query, decode_access_token.
  cbn [db_fails utcnow healthy mbind result_bind].
  split; [|split].
  - destruct (truthy x_api_key) as [k|].
    + destruct (db_fails env 0); [by right|]. cbn [mbind result_bind].
      destruct (first _ (api_keys db)) as [api|]; [|by left].
      destruct (key_expired _ api); [by left|].
      destruct (db_fails env 1); [by right|by left].
    + destruct (truthy authorization) as [a|]; [|by left].
      destruct (Py.partition " " a) as [[scheme sep] tok].
      case_decide; [by left|].
      destruct (jwt_decode tok SECRET_KEY _) as [e|payload]; [by left|].
      destruct (payload !! "sub") as [sub|]; [|by left].
      destruct (py_int sub); [|by left].
      destruct (payload !! "org") as [org|]; [|by left].
      destruct (py_int org); [|by left].
      destruct (db_fails env 0); [by right|by left].
  - intros Hup. by rewrite !Hup.
  - intros k api -> Hkey Hlive H0 H1. rewrite H0. cbn [mbind result_bind].
    rewrite Hkey, Hlive. by rewrite H1.
Qed.

(** X22. An [expires_days] that does not give a date (more than
    999999999 days, or a sum with the time of the request outside the years
    1 to 9999) ends the request with an uncaught OverflowError, after the
    quota check and before anything is written. *)
Theorem expires_days_overflow (env : Env) (token_hex : string)
    (name : option string) (scopes : option (list string)) (d : Z)
    (user : User.t) (payload : claims) (db : DB) :
  d < -999999999 ∨ 999999999 < d
  ∨ utcnow env + d * DAY < DATETIME_MIN ∨ DATETIME_MAX < utcnow env + d * DAY →
  d ≠ 0 →
  let quota := Py.get API_KEY_QUOTA (value (User.user_type user)) 10 in
  let r := create_api_key env token_hex (APIKeyCreateReq.mk name (Some d) scopes)
             (AuthJwt user payload) db in
  r.2 = db
  ∧ (live_keys (User.id user) db < quota → r.1 = Uncaught OverflowError)
  ∧ (quota ≤ live_keys (User.id user) db →
     r.1 = HTTPException 403 (quota_detail (value (User.user_type user)) quota)).
Proof.
  intros Hrange Hd quota r. subst r quota.
  unfold create_api_key, live_keys, key_expires_at, add_days.
  rewrite decide_False by (by intros ?).
  cbn [auth_user APIKeyCreateReq.expires_days].
  rewrite (decide_False (P := d = 0)) by done.
  rewrite (decide_False (P := _ ∧ _)) by lia.
  cbn [mbind result_bind].
  case_decide; (split; [done|]); split; intros; first [done|lia].
Qed.

End StoreFailure.

(** ** The additions on the demo platform *)

(** [alice] creates a second key and uses it. *)
Lemma created_key_authenticates_witness :
  ∃ out db' api,
    @create_api_key Demo.P (healthy 5) "b2" (APIKeyCreateReq.mk None (Some 1) None)
      (AuthJwt Demo.alice Demo.alice_claims) (Demo.db1 "tts" false) = (Ok out, db')
    ∧ @get_current_user Demo.P (healthy 9) (Some (APIKeyOut.key out)) None db'
      = Ok (AuthApiKey Demo.alice api).
Proof.
  destruct (@create_api_key Demo.P (healthy 5) "b2"
              (APIKeyCreateReq.mk None (Some 1) None)
              (AuthJwt Demo.alice Demo.alice_claims) (Demo.db1 "tts" false))
    as [[out| |] db'] eqn:Hc; [|vm_compute in Hc; discriminate..].
  destruct (@created_key_authenticates Demo.P _ _ _ _ _ _ _ _ 9 None Hc)
    as (api & _ & _ & _ & Hres).
  - vm_compute. apply NoDup_singleton.
  - apply list_elem_of_singleton. reflexivity.
  - intros d [= <-]. right. vm_compute. discriminate.
  - by exists out, db', api.
Defined.

(** A key with [expires_days = -1] is refused from the start. *)
Lemma expires_days_edges_witness :
  ∃ out db',
    @create_api_key Demo.P (healthy 5) "b2" (APIKeyCreateReq.mk None (Some (-1)) None)
      (AuthJwt Demo.alice Demo.alice_claims) (Demo.db1 "tts" false) = (Ok out, db')
    ∧ @get_current_user Demo.P (healthy 5) (Some (APIKeyOut.key out)) None db'
      = HTTPException 401 "API key expired".
Proof.
  destruct (@create_api_key Demo.P (healthy 5) "b2"
              (APIKeyCreateReq.mk None (Some (-1)) None)
              (AuthJwt Demo.alice Demo.alice_claims) (Demo.db1 "tts" false))
    as [[out| |] db'] eqn:Hc; [|vm_compute in Hc; discriminate..].
  exists out, db'. split; [done|].
  refine (proj1 (@expires_days_edges Demo.P (healthy 5) "b2" None None (-1)
                   Demo.alice Demo.alice_claims (Demo.db1 "tts" false) db' out 5 None
                   _ _ Hc)).
  - reflexivity.
  - discriminate.
Defined.

(** [alice], a NORMAL user, asks for the scopes admin and tts. *)
Lemma created_key_scopes_witness :
  ∃ out db' api,
    @create_api_key Demo.P (healthy 5) "b2"
      (APIKeyCreateReq.mk None None (Some ["admin"; "tts"]))
      (AuthJwt Demo.alice Demo.alice_claims) (Demo.db1 "tts" false) = (Ok out, db')
    ∧ api_keys db' = api_keys (Demo.db1 "tts" false) ++ [api]
    ∧ key_scopes api = ["admin"; "tts"].
Proof.
  destruct (@create_api_key Demo.P (healthy 5) "b2"
              (APIKeyCreateReq.mk None None (Some ["admin"; "tts"]))
              (AuthJwt Demo.alice Demo.alice_claims) (Demo.db1 "tts" false))
    as [[out| |] db'] eqn:Hc; [|vm_compute in Hc; discriminate..].
  destruct (@created_key_scopes Demo.P _ _ _ _ _ _ _ _ Hc) as (api & Hdb & _ & Hs).
  - intros _. split; [repeat constructor|discriminate].
  - by exists out, db', api.
Defined.

Lemma revoked_key_stops_authenticating_witness :
  let r := revoke_api_key 1 (AuthJwt Demo.alice Demo.alice_claims)
             (Demo.db1 "tts" false) in
  r.1 = Ok ("revoked", 1)
  ∧ @get_current_user Demo.P (healthy 9) (Some "sk-a1") None r.2
    = HTTPException 401 "Invalid API key".
Proof.
  refine (@revoked_key_stops_authenticating Demo.P 1 Demo.alice Demo.alice_claims
            (Demo.db1 "tts" false) (Demo.alice_key "tts" false) "sk-a1" 9 None
            _ _ _ _ _ _); try reflexivity.
  - vm_compute. apply NoDup_singleton.
  - discriminate.
  - apply list_elem_of_singleton. reflexivity.
Defined.

Lemma default_key_passes_scope_check_witness :
  ∃ out db' api,
    @create_api_key Demo.P (healthy 5) "b2" (APIKeyCreateReq.mk None None None)
      (AuthJwt Demo.alice Demo.alice_claims) (Demo.db1 "tts" false) = (Ok out, db')
    ∧ api_keys db' = api_keys (Demo.db1 "tts" false) ++ [api]
    ∧ (generate (healthy 9) "{}" (AuthApiKey Demo.alice api) ∅).1
      = Ok ("Generated content for org 1 by api_key user alice", "{}").
Proof.
  destruct (@create_api_key Demo.P (healthy 5) "b2"
              (APIKeyCreateReq.mk None None None)
              (AuthJwt Demo.alice Demo.alice_claims) (Demo.db1 "tts" false))
    as [[out| |] db'] eqn:Hc; [|vm_compute in Hc; discriminate..].
  destruct (@default_key_passes_scope_check Demo.P (healthy 5) (healthy 9) _ _ _ _ _
              _ _ _ "{}" ∅ Hc) as (api & Hdb & Hgen).
  exists out, db', api. split; [done|]. split; [done|]. by rewrite Hgen.
Defined.

Lemma signup_then_login_witness :
  ∃ out db',
    @signup Demo.P (healthy 0) (SignupReq.mk "acme" "alice" "pw" None None) empty_db
    = (Ok out, db')
    ∧ @token Demo.P (healthy 3) "alice" "pw" db' = Ok "tok".
Proof.
  destruct (@signup Demo.P (healthy 0) (SignupReq.mk "acme" "alice" "pw" None None)
              empty_db) as [[out| |] db'] eqn:Hs; [|vm_compute in Hs; discriminate..].
  destruct (@signup_then_login Demo.P (healthy 0) (healthy 3) _ _ _ _ Hs)
    as (o & u & _ & _ & _ & _ & _ & _ & _ & _ & _ & Hlogin); [reflexivity|].
  by exists out, db'.
Defined.

Lemma signup_taken_username_keeps_org_witness :
  let r := @signup Demo.P (healthy 7) (SignupReq.mk "other" "alice" "x" None None)
             (Demo.db1 "tts" false) in
  r.1 = Uncaught IntegrityError
  ∧ @signup Demo.P (healthy 8) (SignupReq.mk "other" "bob" "y" None None) r.2
    = (HTTPException 400 "org exists", r.2).
Proof.
  destruct (@signup_taken_username_keeps_org Demo.P (healthy 7)
              (SignupReq.mk "other" "alice" "x" None None) (Demo.db1 "tts" false)
              Demo.alice) as (Herr & _ & _ & Hlater).
  - reflexivity.
  - apply list_elem_of_singleton. reflexivity.
  - reflexivity.
  - split; [exact Herr|]. by apply Hlater.
Defined.

Lemma login_token_resolves_witness :
  @get_current_user Demo.P (healthy (3600 * SECOND)) None (Some "Bearer tok")
    (Demo.db1 "tts" false)
  = Ok (AuthJwt Demo.alice Demo.alice_claims)
  ∧ @get_current_user Demo.P (healthy (3601 * SECOND)) None (Some "Bearer tok")
      (Demo.db1 "tts" false)
    = HTTPException 401 "Invalid token".
Proof.
  split.
  - refine (proj1 (@login_token_resolves Demo.P 0 (3600 * SECOND) "alice" "pw" "tok"
                     Demo.alice (Demo.db1 "tts" false) _ _ _ _ _ _ _ _) _);
      first [reflexivity | intros; reflexivity
            | vm_compute; apply NoDup_singleton | vm_compute; discriminate].
  - refine (proj1 (proj2 (@login_token_resolves Demo.P 0 (3601 * SECOND) "alice" "pw"
                            "tok" Demo.alice (Demo.db1 "tts" false) _ _ _ _ _ _ _ _)) _);
      first [reflexivity | intros; reflexivity
            | vm_compute; apply NoDup_singleton | vm_compute; reflexivity].
Defined.

(** A valid bearer token next to an [x-api-key] header does not help. *)
Lemma api_key_header_blocks_key_management_witness :
  let r := @post_apikeys Demo.P (healthy 5) (Some "sk-a1") (Some "Bearer tok") "b2"
             (APIKeyCreateReq.mk None None None) (Demo.db1 "tts" false) in
  is_ok r.1 = false ∧ r.2 = Demo.db1 "tts" false.
Proof.
  refine (proj1 (@api_key_header_blocks_key_management Demo.P (healthy 5)
                   (Some "sk-a1") (Some "Bearer tok") "sk-a1" "b2"
                   (APIKeyCreateReq.mk None None None) 1 (Demo.db1 "tts" false) _)).
  reflexivity.
Defined.

Lemma list_api_keys_own_masked_witness :
  ∃ out db' outs,
    @create_api_key Demo.P (healthy 5) "0123456789abcdef0123456789abcdef"
      (APIKeyCreateReq.mk None None None)
      (AuthJwt Demo.alice Demo.alice_claims) (Demo.db1 "tts" false) = (Ok out, db')
    ∧ list_api_keys (AuthJwt Demo.alice Demo.alice_claims) db' = Ok outs
    ∧ ∃ o, o ∈ outs ∧ APIKeyOut.key o = mask_key (APIKeyOut.key out).
Proof.
  destruct (@create_api_key Demo.P (healthy 5) "0123456789abcdef0123456789abcdef"
              (APIKeyCreateReq.mk None None None)
              (AuthJwt Demo.alice Demo.alice_claims) (Demo.db1 "tts" false))
    as [[out| |] db'] eqn:Hc; [|vm_compute in Hc; discriminate..].
  destruct (@list_api_keys_own_masked Demo.P _ _ _ _ _ _ _ _ Hc)
    as (outs & Hlist & _ & _ & o & Ho & _ & Hkey & _); [reflexivity|].
  exists out, db', outs. split; [done|]. split; [done|]. by exists o.
Defined.

(** [alice] signs up as administrator of "acme", creates a key and lists
    the keys of her organization, then those of another. *)
Lemma list_org_keys_same_tenant_witness :
  let db := @handle_all Demo.P
              [(healthy 0, Req (Signup (SignupReq.mk "acme" "alice" "pw" None
                                          (Some true))));
               (healthy 0, Req (CreateKey None (Some "Bearer tok") "a1"
                                  (APIKeyCreateReq.mk None None None)))]
              empty_db in
  let boss := User.mk 1 1 "alice" "bcrypt(pw)" true NORMAL 0 in
  (∃ outs o, list_org_keys 1 (AuthJwt boss ∅) db = Ok outs
             ∧ o ∈ outs ∧ OrgKeyOut.id o = 1)
  ∧ is_ok (list_org_keys 2 (AuthJwt boss ∅) db) = false.
Proof.
  intros db boss.
  assert (consistent db) as Hc
    by apply (@handle_all_consistent Demo.P), empty_db_consistent.
  split.
  - destruct (@list_org_keys_same_tenant 1 (AuthJwt boss ∅) db Hc)
      as (_ & _ & Hrows).
    destruct (list_org_keys 1 (AuthJwt boss ∅) db) as [outs| |] eqn:Hl;
      [|vm_compute in Hl; discriminate..].
    destruct (Hrows outs eq_refl) as (_ & Hall).
    destruct (Hall (APIKey.mk 1 1 1 "hmac(sk-a1)" "sk-a1" None
                      (Some "generate:text") false 0 None)) as (o & Ho & Hid).
    + vm_compute. apply list_elem_of_here.
    + reflexivity.
    + by exists outs, o.
  - destruct (is_ok (list_org_keys 2 (AuthJwt boss ∅) db)) eqn:Hok; [|done].
    apply (proj1 (@list_org_keys_same_tenant 2 (AuthJwt boss ∅) db Hc)) in Hok.
    destruct Hok as (Hok & _). vm_compute in Hok. discriminate.
Defined.

Lemma limiter_counters_are_separate_witness :
  (rate_limit_check_by_user (healthy 0) 1 "NORMAL" ∅).2 !! rl_key 2 0 = None.
Proof.
  refine (proj2 (limiter_counters_are_separate (healthy 0) 1 2 0 "NORMAL" ∅ _)).
  left. discriminate.
Defined.

Lemma next_window_admits_witness :
  let r := (admit_all 1 "NORMAL" (healthy <$> replicate 12 0) ∅).2 in
  (rate_limit_check_by_user (healthy SECOND) 1 "NORMAL" r).1 = (true, None).
Proof.
  refine (proj1 (next_window_admits 1 SECOND "NORMAL" (healthy <$> replicate 12 0) ∅
                   _ _ _)).
  - discriminate.
  - vm_compute. repeat constructor; discriminate.
  - reflexivity.
Defined.

Lemma counter_deadline_witness :
  (rate_limit_check_by_user (mkEnv 0 (λ _, false) NoFault Dropped) 1 "NORMAL" ∅).2
    !! rl_key 1 0 = Some (Redis.mk 1 None).
Proof.
  refine (proj1 (proj2 (proj2 (counter_deadline 0 1 "NORMAL" [] ∅ _ _)))).
  - discriminate.
  - reflexivity.
Defined.

Lemma revoke_only_own_keys_witness :
  let bob := User.mk 2 1 "bob" "bcrypt(x)" false NORMAL 0 in
  (revoke_api_key 1 (AuthJwt bob ∅) (Demo.db1 "tts" false)).1
  = HTTPException 404 "API key not found"
  ∧ (revoke_api_key 1 (AuthJwt bob ∅) (Demo.db1 "tts" false)).2
    = Demo.db1 "tts" false.
Proof.
  intros bob.
  refine (proj1 (revoke_only_own_keys 1 (AuthJwt bob ∅) (Demo.db1 "tts" false) _)
            (Demo.alice_key "tts" false) _ _ _).
  - vm_compute. apply NoDup_singleton.
  - apply list_elem_of_singleton. reflexivity.
  - reflexivity.
  - vm_compute. discriminate.
Defined.

Lemma mask_key_shape_witness :
  mask_key "sk-short" = "sk-short"
  ∧ mask_key "sk-0123456789abcdef" = mask_key "sk-01xxxxxxxxxxxxcdef".
Proof.
  split.
  - apply (proj1 (mask_key_shape "sk-short" EmptyString)). vm_compute. lia.
  - symmetry.
    refine (proj2 (proj2 (proj2 (proj2
              (proj2 (mask_key_shape "sk-0123456789abcdef" "sk-01xxxxxxxxxxxxcdef")
                 _)))) _ _ _); first [reflexivity | vm_compute; lia].
Defined.

(** The key of [alice] is found, then the lookup of the user fails. *)
Lemma resolver_store_failure_uncaught_witness :
  @get_current_user Demo.P (mkEnv 5 (λ n, bool_decide (n = 1%nat)) NoFault NoFault)
    (Some "sk-a1") None (Demo.db1 "tts" false)
  = Uncaught OperationalError.
Proof.
  refine (proj2 (proj2 (@resolver_store_failure_uncaught Demo.P
                          (mkEnv 5 (λ n, bool_decide (n = 1%nat)) NoFault NoFault)
                          (Some "sk-a1") None (Demo.db1 "tts" false)))
            "sk-a1" (Demo.alice_key "tts" false) _ _ _ _ _); reflexivity.
Defined.

(** [alice] asks at time 0 for a key that expires after 3000000 days. *)
Lemma expires_days_overflow_witness :
  @create_api_key Demo.P (healthy 0) "b2" (APIKeyCreateReq.mk None (Some 3000000) None)
    (AuthJwt Demo.alice Demo.alice_claims) (Demo.db1 "tts" false)
  = (Uncaught OverflowError, Demo.db1 "tts" false).
Proof.
  destruct (@expires_days_overflow Demo.P (healthy 0) "b2" None None 3000000
              Demo.alice Demo.alice_claims (Demo.db1 "tts" false))
    as (Hdb & Hroom & _).
  - right. right. right. vm_compute. reflexivity.
  - discriminate.
  - apply injective_projections; [apply Hroom; vm_compute; reflexivity|exact Hdb].
Defined.
